(** * Switched reluctance motor control (srm_control.c / srm_control.h)

    A shallow embedding of the three-phase sequencer: the [Sequence]
    structure, the two Arduino collaborators it talks to (the microsecond
    clock and the digital pins) and every function exported by the header.

    Integer fields are [Z] with the C wrap-around written out:
    [unsigned char] is 8 bits, [unsigned long] is 32 bits (as on every
    Arduino core).  A call mutates the structure through a pointer; here each
    function returns the updated structure next to its C result. *)

From Stdlib Require Import ZArith List Bool Lia.
Import ListNotations.
Local Open Scope Z_scope.

(** ** Machine integers *)

Definition wrap_uchar (z : Z) : Z := z mod 2 ^ 8.
Definition wrap_ulong (z : Z) : Z := z mod 2 ^ 32.

(** C truth value of an integer expression. *)
Definition truthy (z : Z) : bool := negb (z =? 0).

(** ** The board: clock and pins (Arduino.h) *)

Inductive level : Set := LOW | HIGH.
Inductive pin_mode : Set := INPUT | OUTPUT.

Inductive event : Set :=
| PinMode (pin : Z) (mode : pin_mode)
| DigitalWrite (pin : Z) (value : level).

(** [clock] is the number of microseconds since start-up; [trace] records
    the pin calls made so far, oldest first. *)
Record Board : Set := mkBoard {
  clock : Z;
  trace : list event
}.

(** A call either returns or runs into undefined behaviour (the only
    instance in this program is an integer division by zero). *)
Inductive outcome (A : Type) : Type :=
| Returned (a : A)
| Undefined.
Arguments Returned {A} a.
Arguments Undefined {A}.

Definition IO (A : Type) : Type := Board -> outcome (A * Board).

Definition ret {A} (a : A) : IO A := fun b => Returned (a, b).

Definition bind {A B} (m : IO A) (k : A -> IO B) : IO B :=
  fun b => match m b with
           | Returned (a, b') => k a b'
           | Undefined => Undefined
           end.

Notation "x <- m ;; k" := (bind m (fun x => k))
  (at level 61, m at next level, right associativity).
Notation "m ;;; k" := (bind m (fun _ => k))
  (at level 61, right associativity).
Notation "' pat <- m ;; k" := (bind m (fun x => match x with pat => k end))
  (at level 61, pat pattern, m at next level, right associativity).

(** [micros()] returns an [unsigned long]: the clock modulo 2^32. *)
Definition micros : IO Z := fun b => Returned (wrap_ulong (clock b), b).

Definition pinMode (pin : Z) (mode : pin_mode) : IO unit :=
  fun b => Returned (tt, mkBoard (clock b) (trace b ++ [PinMode pin mode])).

Definition digitalWrite (pin : Z) (value : level) : IO unit :=
  fun b => Returned (tt, mkBoard (clock b) (trace b ++ [DigitalWrite pin value])).

(** Integer division of non-negative operands as C defines it: truncation,
    undefined for a zero divisor. *)
Definition c_div (a d : Z) : IO Z :=
  fun b => if d =? 0 then Undefined else Returned (Z.quot a d, b).

(** Time passing between two calls of the library. *)
Definition elapse (dt : Z) : IO unit :=
  fun b => Returned (tt, mkBoard (clock b + dt) (trace b)).

(** What the pins show: the level of the last write to [pin], if any. *)
Fixpoint pin_level (t : list event) (pin : Z) : option level :=
  match t with
  | [] => None
  | e :: t' =>
      match pin_level t' pin with
      | Some l => Some l
      | None =>
          match e with
          | DigitalWrite p l => if p =? pin then Some l else None
          | PinMode _ _ => None
          end
      end
  end.

(** How many times [pin] was configured as an output. *)
Fixpoint output_count (t : list event) (pin : Z) : nat :=
  match t with
  | [] => O
  | PinMode p OUTPUT :: t' =>
      if p =? pin then S (output_count t' pin) else output_count t' pin
  | _ :: t' => output_count t' pin
  end.

(** ** srm_control.h *)

Definition SequenceType : Set := Z.
Definition SEQUENCE_SIMPLE : SequenceType := 0.
Definition SEQUENCE_OVERLAP : SequenceType := 1.

Record Sequence : Set := mkSequence {
  pin1 : Z;
  pin2 : Z;
  pin3 : Z;
  phase1 : Z;
  phase2 : Z;
  phase3 : Z;
  limit : Z;
  steps : Z;
  position : Z;
  running : bool;
  speed_control : bool;
  time_step : Z;
  next_update : Z
}.

(** Field assignments [sequence->f = v]. *)
Definition set_position (v : Z) (s : Sequence) : Sequence :=
  mkSequence (pin1 s) (pin2 s) (pin3 s) (phase1 s) (phase2 s) (phase3 s)
    (limit s) (steps s) v (running s) (speed_control s)
    (time_step s) (next_update s).

Definition set_running (v : bool) (s : Sequence) : Sequence :=
  mkSequence (pin1 s) (pin2 s) (pin3 s) (phase1 s) (phase2 s) (phase3 s)
    (limit s) (steps s) (position s) v (speed_control s)
    (time_step s) (next_update s).

Definition set_speed_control (v : bool) (s : Sequence) : Sequence :=
  mkSequence (pin1 s) (pin2 s) (pin3 s) (phase1 s) (phase2 s) (phase3 s)
    (limit s) (steps s) (position s) (running s) v
    (time_step s) (next_update s).

Definition set_time_step (v : Z) (s : Sequence) : Sequence :=
  mkSequence (pin1 s) (pin2 s) (pin3 s) (phase1 s) (phase2 s) (phase3 s)
    (limit s) (steps s) (position s) (running s) (speed_control s)
    v (next_update s).

Definition set_next_update (v : Z) (s : Sequence) : Sequence :=
  mkSequence (pin1 s) (pin2 s) (pin3 s) (phase1 s) (phase2 s) (phase3 s)
    (limit s) (steps s) (position s) (running s) (speed_control s)
    (time_step s) v.

(** ** srm_control.c *)

(** [motor_set_speed]: no test on [speed]; the first division is evaluated
    whatever its divisor. *)
Definition motor_set_speed (sequence : Sequence) (speed : Z) : IO Sequence :=
  q <- c_div 60000000 speed ;;
  t <- c_div q (steps sequence) ;;
  let sequence := set_time_step (wrap_ulong t) sequence in
  now <- micros ;;
  ret (set_next_update (wrap_ulong (now + time_step sequence)) sequence).

(** [motor_initialize]: the structure comes zeroed from [calloc]; the
    [switch] falls to the simple sequence for every type but
    [SEQUENCE_OVERLAP].  The third [pinMode] call names [pin2], as the
    source does. *)
Definition motor_initialize (p1 p2 p3 : Z) (type : SequenceType) : IO Sequence :=
  let '(ph1, ph2, ph3, n) :=
    if type =? SEQUENCE_OVERLAP
    then (0x31, 0x1c, 0x07, 6)      (* 0b00110001, 0b00011100, 0b00000111 *)
    else (0x04, 0x02, 0x01, 3)      (* 0b00000100, 0b00000010, 0b00000001 *)
  in
  let result :=
    mkSequence p1 p2 p3 ph1 ph2 ph3
      (wrap_uchar (Z.shiftl 1 n)) n 1 true false 0 0 in
  result <- motor_set_speed result 500 ;;
  pinMode p1 OUTPUT ;;;
  pinMode p2 OUTPUT ;;;
  pinMode p2 OUTPUT ;;;
  ret result.

Definition motor_set_speed_control (sequence : Sequence) (status : bool)
  : IO Sequence :=
  ret (set_speed_control status sequence).

Definition motor_should_update (sequence : Sequence) : IO (bool * Sequence) :=
  if speed_control sequence then
    now <- micros ;;
    let result := next_update sequence <=? now in
    if result
    then ret (result,
              set_next_update
                (wrap_ulong (next_update sequence + time_step sequence))
                sequence)
    else ret (result, sequence)
  else ret (true, sequence).

Definition motor_apply (sequence : Sequence) : IO unit :=
  if negb (running sequence) then ret tt
  else
    digitalWrite (pin1 sequence)
      (if truthy (Z.land (phase1 sequence) (position sequence))
       then HIGH else LOW) ;;;
    digitalWrite (pin2 sequence)
      (if truthy (Z.land (phase2 sequence) (position sequence))
       then HIGH else LOW) ;;;
    digitalWrite (pin3 sequence)
      (if truthy (Z.land (phase3 sequence) (position sequence))
       then HIGH else LOW).

Definition motor_step (sequence : Sequence) : IO (bool * Sequence) :=
  '(go, sequence) <- motor_should_update sequence ;;
  if negb go then ret (false, sequence)
  else
    let sequence :=
      set_position (wrap_uchar (Z.shiftl (position sequence) 1)) sequence in
    let sequence :=
      if position sequence =? limit sequence
      then set_position 1 sequence else sequence in
    motor_apply sequence ;;;
    ret (true, sequence).

Definition motor_step_backward (sequence : Sequence) : IO (bool * Sequence) :=
  '(go, sequence) <- motor_should_update sequence ;;
  if negb go then ret (false, sequence)
  else
    let sequence :=
      set_position (Z.shiftr (position sequence) 1) sequence in
    let sequence :=
      if position sequence <? 1
      then set_position (Z.shiftr (limit sequence) 1) sequence else sequence in
    motor_apply sequence ;;;
    ret (true, sequence).

Definition motor_release (sequence : Sequence) : IO Sequence :=
  let sequence := set_running false sequence in
  digitalWrite (pin1 sequence) LOW ;;;
  digitalWrite (pin2 sequence) LOW ;;;
  digitalWrite (pin3 sequence) LOW ;;;
  ret sequence.

Definition motor_resume (sequence : Sequence) : IO Sequence :=
  ret (set_running true sequence).

(** ** Driving the library

    A client program is a sequence of calls on one [Sequence], with time
    passing in between. *)

Inductive call : Set :=
| Step
| StepBackward
| SetSpeedControl (status : bool)
| SetSpeed (speed : Z)
| Apply
| Release
| Resume
| Elapse (dt : Z).

Definition exec (c : call) (s : Sequence) : IO Sequence :=
  match c with
  | Step => '(_, s') <- motor_step s ;; ret s'
  | StepBackward => '(_, s') <- motor_step_backward s ;; ret s'
  | SetSpeedControl status => motor_set_speed_control s status
  | SetSpeed speed => motor_set_speed s speed
  | Apply => motor_apply s ;;; ret s
  | Release => motor_release s
  | Resume => motor_resume s
  | Elapse dt => elapse dt ;;; ret s
  end.

Fixpoint run (cs : list call) (s : Sequence) : IO Sequence :=
  match cs with
  | [] => ret s
  | c :: cs' => s' <- exec c s ;; run cs' s'
  end.

(** A state of the sequencer and of the board that some client can observe:
    [motor_initialize] followed by calls that all returned. *)
Definition reachable (s : Sequence) (b : Board) : Prop :=
  exists p1 p2 p3 type b0 cs,
    (s0 <- motor_initialize p1 p2 p3 type ;; run cs s0) b0 = Returned (s, b).

(** [motor_step] called once after each of the given delays; the results of
    the calls are collected in order. *)
Fixpoint forward (dts : list Z) (s : Sequence) : IO (list bool * Sequence) :=
  match dts with
  | [] => ret ([], s)
  | dt :: dts' =>
      elapse dt ;;;
      '(r, s1) <- motor_step s ;;
      '(rs, s2) <- forward dts' s1 ;;
      ret (r :: rs, s2)
  end.

(** The shape every initialised sequence keeps: one of the two built-in
    patterns, [limit = 2^steps], and [position] a single bit below it. *)
Definition simple_pattern (s : Sequence) : Prop :=
  phase1 s = 4 /\ phase2 s = 2 /\ phase3 s = 1 /\ steps s = 3.

Definition overlap_pattern (s : Sequence) : Prop :=
  phase1 s = 49 /\ phase2 s = 28 /\ phase3 s = 7 /\ steps s = 6.

Definition well_formed (s : Sequence) : Prop :=
  (simple_pattern s \/ overlap_pattern s) /\
  limit s = 2 ^ steps s /\
  exists k, 0 <= k < steps s /\ position s = 2 ^ k.

Definition pins_distinct (s : Sequence) : Prop :=
  pin1 s <> pin2 s /\ pin1 s <> pin3 s /\ pin2 s <> pin3 s.

(** ** Closed forms used in the statements *)

(** The reading [micros()] gives on board [b]. *)
Definition reading (b : Board) : Z := wrap_ulong (clock b).

(** Whether the pacing gate lets a step through on board [b]. *)
Definition gate (s : Sequence) (b : Board) : bool :=
  negb (speed_control s) || (next_update s <=? reading b).

(** The schedule after a call went through the gate. *)
Definition rescheduled (s : Sequence) : Sequence :=
  if speed_control s
  then set_next_update (wrap_ulong (next_update s + time_step s)) s
  else s.

(** Position after a forward, resp. backward, shift with its wrap. *)
Definition forward_position (s : Sequence) : Z :=
  let p := wrap_uchar (Z.shiftl (position s) 1) in
  if p =? limit s then 1 else p.

Definition backward_position (s : Sequence) : Z :=
  let p := Z.shiftr (position s) 1 in
  if p <? 1 then Z.shiftr (limit s) 1 else p.

(** The level a phase mask asks for at a position, and the three writes of
    one [motor_apply]. *)
Definition phase_level (phase pos : Z) : level :=
  if truthy (Z.land phase pos) then HIGH else LOW.

Definition pattern_writes (s : Sequence) : list event :=
  [DigitalWrite (pin1 s) (phase_level (phase1 s) (position s));
   DigitalWrite (pin2 s) (phase_level (phase2 s) (position s));
   DigitalWrite (pin3 s) (phase_level (phase3 s) (position s))].

Definition release_writes (s : Sequence) : list event :=
  [DigitalWrite (pin1 s) LOW; DigitalWrite (pin2 s) LOW;
   DigitalWrite (pin3 s) LOW].

(** Three writes, one per pin, in the order of [motor_apply]. *)
Definition writes (s : Sequence) (l1 l2 l3 : level) : list event :=
  [DigitalWrite (pin1 s) l1; DigitalWrite (pin2 s) l2;
   DigitalWrite (pin3 s) l3].

(** What the three pins of [s] show on board [b]. *)
Definition pins_read (b : Board) (s : Sequence)
  : option level * option level * option level :=
  (pin_level (trace b) (pin1 s), pin_level (trace b) (pin2 s),
   pin_level (trace b) (pin3 s)).

Definition log (b : Board) (es : list event) : Board :=
  mkBoard (clock b) (trace b ++ es).

(** Calls that only step or let time pass. *)
Definition stepping (c : call) : bool :=
  match c with
  | Step | StepBackward | Elapse _ => true
  | _ => false
  end.

(** ** Further notions for sessions *)

(** [motor_step_backward] called once after each of the given delays. *)
Fixpoint backward (dts : list Z) (s : Sequence) : IO (list bool * Sequence) :=
  match dts with
  | [] => ret ([], s)
  | dt :: dts' =>
      elapse dt ;;;
      '(r, s1) <- motor_step_backward s ;;
      '(rs, s2) <- backward dts' s1 ;;
      ret (r :: rs, s2)
  end.

(** The one call whose behaviour is undefined: a speed of zero. *)
Definition valid_call (c : call) : bool :=
  match c with
  | SetSpeed speed => negb (speed =? 0)
  | _ => true
  end.

(** Calls that keep a released motor released. *)
Definition keeps_released (c : call) : bool :=
  match c with
  | Resume => false
  | _ => valid_call c
  end.

(** The pins, masks and cycle length chosen at construction. *)
Definition same_config (s s' : Sequence) : Prop :=
  pin1 s' = pin1 s /\ pin2 s' = pin2 s /\ pin3 s' = pin3 s /\
  phase1 s' = phase1 s /\ phase2 s' = phase2 s /\ phase3 s' = phase3 s /\
  limit s' = limit s /\ steps s' = steps s.

(** Pin calls a sequence on pins [p1], [p2], [p3] can make. *)
Definition library_event (p1 p2 p3 : Z) (e : event) : bool :=
  match e with
  | PinMode p OUTPUT => (p =? p1) || (p =? p2)
  | PinMode _ INPUT => false
  | DigitalWrite p _ => (p =? p1) || (p =? p2) || (p =? p3)
  end.

Definition low_write (e : event) : bool :=
  match e with
  | DigitalWrite _ LOW => true
  | _ => false
  end.

(** Number of HIGH writes in a list of events. *)
Fixpoint high_count (es : list event) : nat :=
  match es with
  | [] => O
  | DigitalWrite _ HIGH :: es' => S (high_count es')
  | _ :: es' => high_count es'
  end.

(** Every field holds a value of its C type. *)
Definition fits_types (s : Sequence) : Prop :=
  0 <= phase1 s < 2 ^ 8 /\ 0 <= phase2 s < 2 ^ 8 /\ 0 <= phase3 s < 2 ^ 8 /\
  0 <= limit s < 2 ^ 8 /\ 0 <= steps s < 2 ^ 8 /\ 0 <= position s < 2 ^ 8 /\
  0 <= time_step s < 2 ^ 32 /\ 0 <= next_update s < 2 ^ 32.

(** A phase energized both at the position of [s] and at that of [s']. *)
Definition shared_phase (s s' : Sequence) : Prop :=
  exists phase,
    In phase [phase1 s; phase2 s; phase3 s] /\
    Z.land phase (position s) <> 0 /\ Z.land phase (position s') <> 0.

(** ** Sample sessions

    A freshly powered board, and three states a client reaches on it with
    pins 11, 12 and 13. *)

Definition board0 : Board := mkBoard 0 [].

Definition init_trace : list event :=
  [PinMode 11 OUTPUT; PinMode 12 OUTPUT; PinMode 12 OUTPUT].

(** After [motor_initialize(11, 12, 13, SEQUENCE_SIMPLE)]. *)
Definition simple0 : Sequence :=
  mkSequence 11 12 13 4 2 1 8 3 1 true false 40000 40000.
Definition simple0_board : Board := mkBoard 0 init_trace.

(** After [motor_initialize(11, 12, 13, SEQUENCE_OVERLAP)] and one
    [motor_step_backward]: the highest position. *)
Definition overlap_top : Sequence :=
  mkSequence 11 12 13 49 28 7 64 6 32 true false 20000 20000.
Definition overlap_top_board : Board :=
  mkBoard 0 (init_trace ++
             [DigitalWrite 11 HIGH; DigitalWrite 12 LOW; DigitalWrite 13 LOW]).

(** After [motor_initialize(11, 12, 13, SEQUENCE_SIMPLE)],
    [motor_set_speed_control(true)] and [motor_release], all at time 0. *)
Definition paced_released : Sequence :=
  mkSequence 11 12 13 4 2 1 8 3 1 false true 40000 40000.
Definition paced_released_board : Board :=
  mkBoard 0 (init_trace ++
             [DigitalWrite 11 LOW; DigitalWrite 12 LOW; DigitalWrite 13 LOW]).


(** [simple0] with speed control switched on. *)
Definition paced0 : Sequence := set_speed_control true simple0.

(** A board whose clock is 50000 microseconds before the 32-bit wrap, and
    the state after [motor_initialize(11, 12, 13, SEQUENCE_SIMPLE)],
    [motor_set_speed_control(true)] and 45000 microseconds on it. *)
Definition late_board0 : Board := mkBoard (2 ^ 32 - 50000) [].
Definition late_paced : Sequence :=
  mkSequence 11 12 13 4 2 1 8 3 1 true true 40000 (2 ^ 32 - 10000).
Definition late_paced_board : Board := mkBoard (2 ^ 32 - 5000) init_trace.

(** * Properties *)

(** ** Equations of the functions *)

(** Reduce field reads of updated structures, and nothing else. *)
Ltac fields :=
  cbn [pin1 pin2 pin3 phase1 phase2 phase3 limit steps position running
       speed_control time_step next_update
       set_position set_running set_speed_control set_time_step
       set_next_update clock trace fst snd negb] in *.

Lemma log_nil (b : Board) : log b [] = b.
Proof. destruct b; unfold log; cbn. now rewrite app_nil_r. Qed.

Lemma motor_should_update_eq (s : Sequence) (b : Board) :
  motor_should_update s b =
  Returned (gate s b, if gate s b then rescheduled s else s, b).
Proof.
  unfold motor_should_update, gate, rescheduled, reading.
  destruct (speed_control s); cbn; [| reflexivity].
  unfold bind, micros.
  destruct (next_update s <=? wrap_ulong (clock b)); reflexivity.
Qed.

Lemma motor_apply_eq (s : Sequence) (b : Board) :
  motor_apply s b =
  Returned (tt, log b (if running s then pattern_writes s else [])).
Proof.
  unfold motor_apply.
  destruct (running s); cbn.
  - unfold bind, digitalWrite, log, pattern_writes, phase_level; cbn.
    now rewrite <- !app_assoc.
  - now rewrite log_nil.
Qed.

Lemma motor_step_eq (s : Sequence) (b : Board) :
  motor_step s b =
  if gate s b
  then let s' := set_position (forward_position s) (rescheduled s) in
       Returned (true, s', log b (if running s then pattern_writes s' else []))
  else Returned (false, s, b).
Proof.
  unfold motor_step, bind at 1.
  rewrite motor_should_update_eq.
  destruct (gate s b); cbn [negb]; [| reflexivity].
  unfold bind. rewrite motor_apply_eq. unfold ret.
  unfold forward_position, rescheduled.
  destruct (speed_control s); fields;
    destruct (wrap_uchar (Z.shiftl (position s) 1) =? limit s); reflexivity.
Qed.

Lemma motor_step_backward_eq (s : Sequence) (b : Board) :
  motor_step_backward s b =
  if gate s b
  then let s' := set_position (backward_position s) (rescheduled s) in
       Returned (true, s', log b (if running s then pattern_writes s' else []))
  else Returned (false, s, b).
Proof.
  unfold motor_step_backward, bind at 1.
  rewrite motor_should_update_eq.
  destruct (gate s b); cbn [negb]; [| reflexivity].
  unfold bind. rewrite motor_apply_eq. unfold ret.
  unfold backward_position, rescheduled.
  destruct (speed_control s); fields;
    destruct (Z.shiftr (position s) 1 <? 1); reflexivity.
Qed.

Lemma motor_release_eq (s : Sequence) (b : Board) :
  motor_release s b =
  Returned (set_running false s, log b (release_writes s)).
Proof.
  unfold motor_release, bind, digitalWrite, ret, log, release_writes; cbn.
  now rewrite <- !app_assoc.
Qed.

Lemma motor_set_speed_eq (s : Sequence) (speed : Z) (b : Board) :
  speed <> 0 -> steps s <> 0 ->
  motor_set_speed s speed b =
  let t := wrap_ulong (Z.quot (Z.quot 60000000 speed) (steps s)) in
  Returned (set_next_update (wrap_ulong (reading b + t)) (set_time_step t s), b).
Proof.
  intros Hspeed Hsteps.
  unfold motor_set_speed, bind, c_div, micros, ret, reading.
  apply Z.eqb_neq in Hspeed. apply Z.eqb_neq in Hsteps.
  rewrite Hspeed, Hsteps. reflexivity.
Qed.

Lemma motor_set_speed_zero (s : Sequence) (b : Board) :
  motor_set_speed s 0 b = Undefined.
Proof. reflexivity. Qed.

Lemma motor_initialize_eq (p1 p2 p3 : Z) (type : SequenceType) (b : Board) :
  motor_initialize p1 p2 p3 type b =
  let ov := type =? SEQUENCE_OVERLAP in
  Returned
    (mkSequence p1 p2 p3
       (if ov then 49 else 4) (if ov then 28 else 2) (if ov then 7 else 1)
       (if ov then 64 else 8) (if ov then 6 else 3) 1 true false
       (if ov then 20000 else 40000)
       (wrap_ulong (reading b + (if ov then 20000 else 40000))),
     log b [PinMode p1 OUTPUT; PinMode p2 OUTPUT; PinMode p2 OUTPUT]).
Proof.
  unfold motor_initialize.
  destruct (type =? SEQUENCE_OVERLAP); cbv zeta;
    unfold bind at 1; rewrite motor_set_speed_eq by (cbn; lia);
    unfold bind, pinMode, ret, log; cbn; now rewrite <- !app_assoc.
Qed.

(** ** The invariant *)

Lemma well_formed_fields (s s' : Sequence) :
  phase1 s' = phase1 s -> phase2 s' = phase2 s -> phase3 s' = phase3 s ->
  steps s' = steps s -> limit s' = limit s -> position s' = position s ->
  well_formed s -> well_formed s'.
Proof.
  unfold well_formed, simple_pattern, overlap_pattern.
  intros -> -> -> -> -> ->. trivial.
Qed.

(** From [well_formed s]: one goal per pattern and per position, with the
    fields replaced by their values. *)
Ltac enum_wf H :=
  let k := fresh "k" in
  let Hk := fresh "Hk" in
  let Hpos := fresh "Hpos" in
  let Hlim := fresh "Hlim" in
  let Hst := fresh "Hst" in
  let H1 := fresh "Hph1" in
  let H2 := fresh "Hph2" in
  let H3 := fresh "Hph3" in
  destruct H as ([(H1 & H2 & H3 & Hst) | (H1 & H2 & H3 & Hst)]
                 & Hlim & k & Hk & Hpos);
  rewrite Hst in Hlim, Hk;
  [ assert (k = 0 \/ k = 1 \/ k = 2) as [-> | [-> | ->]] by lia
  | assert (k = 0 \/ k = 1 \/ k = 2 \/ k = 3 \/ k = 4 \/ k = 5)
      as [-> | [-> | [-> | [-> | [-> | ->]]]]] by lia ];
  clear Hk.

Lemma well_formed_forward (s s' : Sequence) :
  phase1 s' = phase1 s -> phase2 s' = phase2 s -> phase3 s' = phase3 s ->
  steps s' = steps s -> limit s' = limit s ->
  position s' = forward_position s ->
  well_formed s -> well_formed s'.
Proof.
  intros E1 E2 E3 Est Elim Epos H.
  unfold well_formed, simple_pattern, overlap_pattern.
  rewrite E1, E2, E3, Est, Elim, Epos. unfold forward_position.
  enum_wf H; rewrite Hph1, Hph2, Hph3, Hst, Hlim, Hpos;
    (split; [auto | split; [reflexivity |]]).
  all: first [ exists 0; split; [lia | reflexivity]
             | exists 1; split; [lia | reflexivity]
             | exists 2; split; [lia | reflexivity]
             | exists 3; split; [lia | reflexivity]
             | exists 4; split; [lia | reflexivity]
             | exists 5; split; [lia | reflexivity] ].
Qed.

Lemma well_formed_backward (s s' : Sequence) :
  phase1 s' = phase1 s -> phase2 s' = phase2 s -> phase3 s' = phase3 s ->
  steps s' = steps s -> limit s' = limit s ->
  position s' = backward_position s ->
  well_formed s -> well_formed s'.
Proof.
  intros E1 E2 E3 Est Elim Epos H.
  unfold well_formed, simple_pattern, overlap_pattern.
  rewrite E1, E2, E3, Est, Elim, Epos. unfold backward_position.
  enum_wf H; rewrite Hph1, Hph2, Hph3, Hst, Hlim, Hpos;
    (split; [auto | split; [reflexivity |]]).
  all: first [ exists 0; split; [lia | reflexivity]
             | exists 1; split; [lia | reflexivity]
             | exists 2; split; [lia | reflexivity]
             | exists 3; split; [lia | reflexivity]
             | exists 4; split; [lia | reflexivity]
             | exists 5; split; [lia | reflexivity] ].
Qed.

Lemma well_formed_steps (s : Sequence) :
  well_formed s -> steps s = 3 \/ steps s = 6.
Proof.
  intros ([H | H] & _); [left | right]; apply H.
Qed.

Lemma motor_initialize_well_formed p1 p2 p3 type b0 s b :
  motor_initialize p1 p2 p3 type b0 = Returned (s, b) -> well_formed s.
Proof.
  rewrite motor_initialize_eq. cbv zeta. intros [= <- _].
  unfold well_formed, simple_pattern, overlap_pattern.
  destruct (type =? SEQUENCE_OVERLAP); fields;
    (split; [auto | split; [reflexivity |]]);
    exists 0; split; [lia | reflexivity | lia | reflexivity].
Qed.

Lemma rescheduled_fields (s : Sequence) :
  pin1 (rescheduled s) = pin1 s /\ pin2 (rescheduled s) = pin2 s /\
  pin3 (rescheduled s) = pin3 s /\
  phase1 (rescheduled s) = phase1 s /\ phase2 (rescheduled s) = phase2 s /\
  phase3 (rescheduled s) = phase3 s /\
  limit (rescheduled s) = limit s /\ steps (rescheduled s) = steps s /\
  position (rescheduled s) = position s /\
  running (rescheduled s) = running s /\
  speed_control (rescheduled s) = speed_control s /\
  time_step (rescheduled s) = time_step s.
Proof.
  unfold rescheduled. destruct (speed_control s) eqn:E; fields; tauto.
Qed.

Lemma exec_well_formed (c : call) (s s' : Sequence) (b b' : Board) :
  well_formed s -> exec c s b = Returned (s', b') -> well_formed s'.
Proof.
  intros Hwf.
  pose proof (rescheduled_fields s)
    as (_ & _ & _ & R1 & R2 & R3 & R4 & R5 & R6 & _).
  destruct c; unfold exec.
  - unfold bind. rewrite motor_step_eq.
    destruct (gate s b); cbv zeta; unfold ret; intros [= <- _]; [| assumption].
    apply (well_formed_forward s); fields; auto.
  - unfold bind. rewrite motor_step_backward_eq.
    destruct (gate s b); cbv zeta; unfold ret; intros [= <- _]; [| assumption].
    apply (well_formed_backward s); fields; auto.
  - unfold motor_set_speed_control, ret. intros [= <- _].
    apply (well_formed_fields s); auto.
  - destruct (Z.eq_dec speed 0) as [-> | Hspeed].
    + rewrite motor_set_speed_zero. discriminate.
    + rewrite motor_set_speed_eq
        by (auto; destruct (well_formed_steps s Hwf); lia).
      cbv zeta. intros [= <- _]. apply (well_formed_fields s); auto.
  - unfold bind. rewrite motor_apply_eq. unfold ret. now intros [= <- _].
  - rewrite motor_release_eq. intros [= <- _].
    apply (well_formed_fields s); auto.
  - unfold motor_resume, ret. intros [= <- _].
    apply (well_formed_fields s); auto.
  - unfold bind, elapse, ret. now intros [= <- _].
Qed.

Lemma run_well_formed (cs : list call) :
  forall s s' b b',
    well_formed s -> run cs s b = Returned (s', b') -> well_formed s'.
Proof.
  induction cs as [| c cs IH]; intros s s' b b' Hwf; cbn [run].
  - unfold ret. now intros [= <- _].
  - unfold bind at 1.
    destruct (exec c s b) as [[s1 b1] |] eqn:E; [| discriminate].
    intros Hrun. eapply IH; [| exact Hrun].
    eapply exec_well_formed; eassumption.
Qed.

Lemma reachable_well_formed (s : Sequence) (b : Board) :
  reachable s b -> well_formed s.
Proof.
  intros (p1 & p2 & p3 & type & b0 & cs & H).
  unfold bind in H.
  destruct (motor_initialize p1 p2 p3 type b0) as [[s0 b1] |] eqn:E;
    [| discriminate].
  eapply run_well_formed; [| exact H].
  eapply motor_initialize_well_formed; exact E.
Qed.

Lemma reachable_init p1 p2 p3 type b0 s b :
  motor_initialize p1 p2 p3 type b0 = Returned (s, b) -> reachable s b.
Proof.
  intros H. exists p1, p2, p3, type, b0, []. unfold bind. now rewrite H.
Qed.

Lemma reachable_exec (c : call) (s s' : Sequence) (b b' : Board) :
  reachable s b -> exec c s b = Returned (s', b') -> reachable s' b'.
Proof.
  intros (p1 & p2 & p3 & type & b0 & cs & H) Hc.
  exists p1, p2, p3, type, b0, (cs ++ [c]).
  unfold bind in *.
  destruct (motor_initialize p1 p2 p3 type b0) as [[s0 b1] |]; [| discriminate].
  revert s0 b1 H. induction cs as [| c0 cs IH]; intros s0 b1 H; cbn [run app] in *.
  - unfold ret in H. injection H as -> ->. unfold bind. rewrite Hc. reflexivity.
  - unfold bind at 1. unfold bind at 1 in H.
    destruct (exec c0 s0 b1) as [[s1 b2] |]; [| discriminate].
    now apply IH.
Qed.

(** ** Stepping on a well-formed sequence *)

Lemma well_formed_position (s : Sequence) :
  well_formed s ->
  exists k, 0 <= k < steps s /\ position s = 2 ^ k /\ limit s = 2 ^ steps s.
Proof.
  intros (_ & Hlim & k & Hk & Hpos). exists k. auto.
Qed.

Lemma forward_position_pow2 (s : Sequence) (k : Z) :
  well_formed s -> 0 <= k < steps s -> position s = 2 ^ k ->
  forward_position s = 2 ^ ((k + 1) mod steps s).
Proof.
  intros H Hk Hpos. unfold forward_position.
  enum_wf H; rewrite Hpos0 in Hpos;
    apply Z.pow_inj_r in Hpos; try lia; subst k;
    rewrite Hpos0, Hlim, Hst; reflexivity.
Qed.

Lemma backward_position_pow2 (s : Sequence) (k : Z) :
  well_formed s -> 0 <= k < steps s -> position s = 2 ^ k ->
  backward_position s = 2 ^ ((k - 1) mod steps s).
Proof.
  intros H Hk Hpos. unfold backward_position.
  enum_wf H; rewrite Hpos0 in Hpos;
    apply Z.pow_inj_r in Hpos; try lia; subst k;
    rewrite Hpos0, Hlim, Hst; reflexivity.
Qed.

Lemma gate_unpaced (s : Sequence) (b : Board) :
  speed_control s = false -> gate s b = true.
Proof. unfold gate. now intros ->. Qed.

Lemma rescheduled_unpaced (s : Sequence) :
  speed_control s = false -> rescheduled s = s.
Proof. unfold rescheduled. now intros ->. Qed.

Lemma forward_unpaced (dts : list Z) :
  forall s b k,
    well_formed s -> speed_control s = false ->
    0 <= k < steps s -> position s = 2 ^ k ->
    exists s' b',
      forward dts s b = Returned (repeat true (length dts), s', b') /\
      position s' = 2 ^ ((k + Z.of_nat (length dts)) mod steps s).
Proof.
  induction dts as [| dt dts IH]; intros s b k Hwf Hsc Hk Hpos.
  - exists s, b. cbn [forward length repeat]. split; [reflexivity |].
    rewrite Z.add_0_r, Z.mod_small by lia. exact Hpos.
  - cbn [forward length repeat].
    unfold bind at 1, elapse. unfold bind at 1. rewrite motor_step_eq.
    rewrite gate_unpaced by exact Hsc. cbv zeta.
    rewrite rescheduled_unpaced by exact Hsc.
    set (s1 := set_position (forward_position s) s).
    assert (Hwf1 : well_formed s1)
      by (apply (well_formed_forward s); subst s1; fields; auto).
    assert (Hn : 0 < steps s) by lia.
    destruct (IH s1 (log (mkBoard (clock b + dt) (trace b))
                       (if running s then pattern_writes s1 else []))
                ((k + 1) mod steps s) Hwf1 Hsc)
      as (s' & b' & Hrun & Hpos').
    + subst s1; fields. apply Z.mod_pos_bound. exact Hn.
    + subst s1; fields. now apply forward_position_pow2.
    + exists s', b'. unfold bind. rewrite Hrun. unfold ret.
      split; [reflexivity |]. rewrite Hpos'. subst s1; fields.
      rewrite Z.add_mod_idemp_l by lia. f_equal. f_equal. lia.
Qed.

Lemma backward_after_forward (s s1 : Sequence) :
  well_formed s -> limit s1 = limit s -> position s1 = forward_position s ->
  backward_position s1 = position s.
Proof.
  intros H Hlim1 Hpos1. unfold backward_position.
  rewrite Hlim1, Hpos1. unfold forward_position.
  enum_wf H; rewrite Hpos, Hlim; reflexivity.
Qed.

Lemma forward_after_backward (s s1 : Sequence) :
  well_formed s -> limit s1 = limit s -> position s1 = backward_position s ->
  forward_position s1 = position s.
Proof.
  intros H Hlim1 Hpos1. unfold forward_position.
  rewrite Hlim1, Hpos1. unfold backward_position.
  enum_wf H; rewrite Hpos, Hlim; reflexivity.
Qed.

(** ** Sample sessions are reachable *)

Lemma paced_released_reachable : reachable paced_released paced_released_board.
Proof.
  exists 11, 12, 13, SEQUENCE_SIMPLE, board0, [SetSpeedControl true; Release].
  reflexivity.
Qed.

(** * The claims *)

(** C1 (position invariant).  In every state reached from
    [motor_initialize] (either pattern, and any type value falling to the
    default) by any finite sequence of calls of the library, among them
    [motor_step] and [motor_step_backward], with any delays in between,
    [position] is a power of two [2^k]: exactly bit [k] is set, it is at
    least 1 and strictly below [limit]. *)
Theorem position_invariant (s : Sequence) (b : Board) :
  reachable s b ->
  (exists k, 0 <= k /\ position s = 2 ^ k /\
             forall i, Z.testbit (position s) i = (k =? i)) /\
  1 <= position s < limit s.
Proof.
  intros Hr. apply reachable_well_formed in Hr.
  destruct (well_formed_position s Hr) as (k & Hk & Hpos & Hlim).
  split.
  - exists k. split; [lia |]. split; [exact Hpos |].
    intros i. rewrite Hpos. apply Z.pow2_bits_eqb. lia.
  - rewrite Hpos, Hlim. split.
    + assert (0 < 2 ^ k) by (apply Z.pow_pos_nonneg; lia). lia.
    + apply Z.pow_lt_mono_r; lia.
Qed.

Lemma position_invariant_witness :
  reachable overlap_top overlap_top_board /\
  ((exists k, 0 <= k /\ position overlap_top = 2 ^ k /\
              forall i, Z.testbit (position overlap_top) i = (k =? i)) /\
   1 <= position overlap_top < limit overlap_top).
Proof.
  split.
  - exists 11, 12, 13, SEQUENCE_OVERLAP, board0, [StepBackward]. reflexivity.
  - apply (position_invariant overlap_top overlap_top_board).
    exists 11, 12, 13, SEQUENCE_OVERLAP, board0, [StepBackward]. reflexivity.
Defined.

(** C2, as stated, fails: after [motor_initialize(11, 12, 13,
    SEQUENCE_SIMPLE)] the call [motor_set_speed(sequence, 0)] is not
    rejected; it evaluates [60000000 / 0], which is undefined. *)
Lemma set_speed_zero_undefined_example :
  motor_initialize 11 12 13 SEQUENCE_SIMPLE board0
    = Returned (simple0, simple0_board) /\
  motor_set_speed simple0 0 simple0_board = Undefined.
Proof. split; reflexivity. Qed.

(** C2, amended.  [motor_set_speed] has no test on its argument and no error
    result: called with speed 0 it performs the division by zero, whatever
    the sequence and the board; a non-zero speed on a sequence with a
    non-zero step count returns. *)
Theorem set_speed_unchecked (s : Sequence) (b : Board) :
  motor_set_speed s 0 b = Undefined /\
  forall speed, speed <> 0 -> steps s <> 0 ->
    exists s', motor_set_speed s speed b = Returned (s', b).
Proof.
  split; [reflexivity |].
  intros speed Hspeed Hsteps. rewrite motor_set_speed_eq by assumption.
  cbv zeta. eexists. reflexivity.
Qed.

Lemma set_speed_unchecked_witness :
  motor_set_speed simple0 0 simple0_board = Undefined /\
  exists s', motor_set_speed simple0 250 simple0_board
             = Returned (s', simple0_board).
Proof.
  split.
  - apply (set_speed_unchecked simple0 simple0_board).
  - apply (proj2 (set_speed_unchecked simple0 simple0_board) 250);
      cbn; discriminate.
Defined.

(** C3 fails on the code.  [motor_initialize] calls [pinMode] on [pin1], on
    [pin2] and on [pin2] again: with pins 11, 12 and 13, pin 13 is never
    configured as an output and pin 12 is configured twice. *)
Theorem initialize_pin_modes (p1 p2 p3 : Z) (type : SequenceType) (b0 : Board) :
  (exists s,
     motor_initialize p1 p2 p3 type b0 =
     Returned (s, log b0 [PinMode p1 OUTPUT; PinMode p2 OUTPUT;
                          PinMode p2 OUTPUT])) /\
  motor_initialize 11 12 13 SEQUENCE_SIMPLE board0
    = Returned (simple0, simple0_board) /\
  output_count (trace simple0_board) 11 = 1%nat /\
  output_count (trace simple0_board) 12 = 2%nat /\
  output_count (trace simple0_board) 13 = 0%nat.
Proof.
  split.
  - rewrite motor_initialize_eq. cbv zeta. eexists. reflexivity.
  - repeat split.
Qed.

(** C4 (cycle closure).  In a reachable state with speed control disabled
    and [position = 1], any run of [n] consecutive [motor_step] calls with
    [0 < n <= steps] (whatever time passes before each call) returns [true]
    at every call, and ends with [position = 1] exactly when [n = steps];
    [steps] is 3 for the simple pattern and 6 for the overlap pattern. *)
Theorem cycle_closure (s : Sequence) (b : Board) (dts : list Z) :
  reachable s b -> speed_control s = false -> position s = 1 ->
  (0 < length dts)%nat -> Z.of_nat (length dts) <= steps s ->
  (simple_pattern s /\ steps s = 3 \/ overlap_pattern s /\ steps s = 6) /\
  exists s' b',
    forward dts s b = Returned (repeat true (length dts), s', b') /\
    (position s' = 1 <-> Z.of_nat (length dts) = steps s).
Proof.
  intros Hr Hsc Hpos Hlen0 Hlen. apply reachable_well_formed in Hr.
  assert (Hst : steps s = 3 \/ steps s = 6) by now apply well_formed_steps.
  split.
  - destruct Hr as ([Hp | Hp] & _); [left | right]; split; auto; apply Hp.
  - destruct (forward_unpaced dts s b 0 Hr Hsc) as (s' & b' & Hrun & Hpos');
      [lia | exact Hpos |].
    exists s', b'. split; [exact Hrun |].
    rewrite Hpos', Z.add_0_l. split.
    + intros H.
      change 1 with (2 ^ 0) in H. apply Z.pow_inj_r in H; try lia.
      * destruct (Z.eq_dec (Z.of_nat (length dts)) (steps s)) as [E | E];
          [exact E |].
        rewrite Z.mod_small in H by lia. lia.
      * apply Z.mod_pos_bound. lia.
    + intros ->. rewrite Z.mod_same by lia. reflexivity.
Qed.

Lemma cycle_closure_witness :
  (simple_pattern simple0 /\ steps simple0 = 3 \/
   overlap_pattern simple0 /\ steps simple0 = 6) /\
  exists s' b',
    forward [5; 0; 70] simple0 simple0_board
      = Returned (repeat true (length [5; 0; 70]), s', b') /\
    (position s' = 1 <-> Z.of_nat (length [5; 0; 70]) = steps simple0).
Proof.
  apply (cycle_closure simple0 simple0_board [5; 0; 70]).
  - exists 11, 12, 13, SEQUENCE_SIMPLE, board0, []. reflexivity.
  - reflexivity.
  - reflexivity.
  - cbn. lia.
  - cbn. lia.
Defined.

(** C5 (reversibility).  In a reachable state with speed control disabled,
    [motor_step] followed at once by [motor_step_backward] both return
    [true] and leave [position] (indeed the whole structure) as it was; so
    does [motor_step_backward] followed at once by [motor_step].  The wrap
    points are covered: the state is any reachable one. *)
Theorem step_round_trip (s : Sequence) (b : Board) :
  reachable s b -> speed_control s = false ->
  (exists s1 b1 s2 b2,
     motor_step s b = Returned (true, s1, b1) /\
     motor_step_backward s1 b1 = Returned (true, s2, b2) /\
     position s2 = position s /\ s2 = s) /\
  (exists s1 b1 s2 b2,
     motor_step_backward s b = Returned (true, s1, b1) /\
     motor_step s1 b1 = Returned (true, s2, b2) /\
     position s2 = position s /\ s2 = s).
Proof.
  intros Hr Hsc. apply reachable_well_formed in Hr.
  split.
  - rewrite motor_step_eq, gate_unpaced, rescheduled_unpaced by exact Hsc.
    cbv zeta. set (s1 := set_position (forward_position s) s).
    do 2 eexists. exists (set_position (backward_position s1) s1). eexists.
    split; [reflexivity |].
    rewrite motor_step_backward_eq, gate_unpaced, rescheduled_unpaced
      by exact Hsc.
    cbv zeta. split; [reflexivity |].
    rewrite (backward_after_forward s s1 Hr) by reflexivity.
    subst s1. destruct s; split; reflexivity.
  - rewrite motor_step_backward_eq, gate_unpaced, rescheduled_unpaced
      by exact Hsc.
    cbv zeta. set (s1 := set_position (backward_position s) s).
    do 2 eexists. exists (set_position (forward_position s1) s1). eexists.
    split; [reflexivity |].
    rewrite motor_step_eq, gate_unpaced, rescheduled_unpaced by exact Hsc.
    cbv zeta. split; [reflexivity |].
    rewrite (forward_after_backward s s1 Hr) by reflexivity.
    subst s1. destruct s; split; reflexivity.
Qed.

Lemma step_round_trip_witness :
  (exists s1 b1 s2 b2,
     motor_step overlap_top overlap_top_board = Returned (true, s1, b1) /\
     motor_step_backward s1 b1 = Returned (true, s2, b2) /\
     position s2 = position overlap_top /\ s2 = overlap_top) /\
  (exists s1 b1 s2 b2,
     motor_step_backward overlap_top overlap_top_board
       = Returned (true, s1, b1) /\
     motor_step s1 b1 = Returned (true, s2, b2) /\
     position s2 = position overlap_top /\ s2 = overlap_top).
Proof.
  apply (step_round_trip overlap_top overlap_top_board).
  - exists 11, 12, 13, SEQUENCE_OVERLAP, board0, [StepBackward]. reflexivity.
  - reflexivity.
Defined.

(** ** Speed and pacing *)

Lemma time_step_exact (speed n : Z) :
  0 < speed -> 0 < n ->
  wrap_ulong (Z.quot (Z.quot 60000000 speed) n) = 60000000 / speed / n.
Proof.
  intros Hspeed Hn.
  assert (Hq : 0 <= 60000000 / speed <= 60000000).
  { split; [apply Z.div_pos; lia |].
    apply Z.div_le_upper_bound; nia. }
  rewrite (Z.quot_div_nonneg 60000000 speed) by lia.
  rewrite Z.quot_div_nonneg by lia.
  unfold wrap_ulong. apply Z.mod_small. split.
  - apply Z.div_pos; lia.
  - apply Z.le_lt_trans with 60000000; [| reflexivity].
    apply Z.div_le_upper_bound; nia.
Qed.

(** C6 (pacing gate).  [motor_should_update] always returns and leaves the
    board alone.  With speed control off the result is [true] and the
    structure is unchanged.  With speed control on the result is [true]
    exactly when the clock reading is at least [next_update]; on [true]
    only [next_update] changes, to [next_update + time_step] in
    [unsigned long] arithmetic (an amount that does not mention the clock
    reading); on [false] the structure is unchanged. *)
Theorem should_update_gate (s : Sequence) (b : Board) :
  exists r s',
    motor_should_update s b = Returned (r, s', b) /\
    if speed_control s
    then (r = true <-> next_update s <= reading b) /\
         (if r
          then next_update s' = (next_update s + time_step s) mod 2 ^ 32 /\
               s' = set_next_update (next_update s') s
          else s' = s)
    else r = true /\ s' = s.
Proof.
  rewrite motor_should_update_eq. do 2 eexists. split; [reflexivity |].
  unfold gate, rescheduled.
  destruct (speed_control s); cbn [negb orb]; [| split; reflexivity].
  split; [apply Z.leb_le |].
  destruct (next_update s <=? reading b); [| reflexivity].
  split; reflexivity.
Qed.

(** The schedule is anchored to the last scheduled tick: called late, at
    100000 with [next_update = 40000], the gate opens and the next tick is
    80000, not 140000; called early, at 39999, it stays shut. *)
Example should_update_anchored :
  let s := set_speed_control true simple0 in
  motor_should_update s (mkBoard 100000 init_trace)
    = Returned (true, set_next_update 80000 s, mkBoard 100000 init_trace) /\
  motor_should_update s (mkBoard 39999 init_trace)
    = Returned (false, s, mkBoard 39999 init_trace).
Proof. split; reflexivity. Qed.

(** Two paced [motor_step] calls 10 microseconds apart, the first one on
    schedule: the first advances, the second is suppressed. *)
Example paced_steps_true_false :
  let s := set_speed_control true simple0 in
  exists s1 b1,
    (elapse 40000 ;;; motor_step s) simple0_board = Returned (true, s1, b1) /\
    position s1 = 2 /\
    (elapse 10 ;;; motor_step s1) b1
      = Returned (false, s1, mkBoard 40010 (trace b1)).
Proof.
  do 2 eexists. split; [cbv; reflexivity |]. split; reflexivity.
Qed.

(** C7 (speed computation).  For every [speed > 0] (and a positive step
    count, as every initialised sequence has), [motor_set_speed] returns,
    sets [time_step] to the exact quotient [(60000000 / speed) / steps],
    sets [next_update] to the clock reading plus that [time_step] in
    [unsigned long] arithmetic, and changes nothing else; with speed 500
    and 3 steps [time_step] is 40000. *)
Theorem set_speed_time_step (s : Sequence) (speed : Z) (b : Board) :
  0 < speed -> 0 < steps s ->
  exists s',
    motor_set_speed s speed b = Returned (s', b) /\
    time_step s' = 60000000 / speed / steps s /\
    next_update s' = (reading b + time_step s') mod 2 ^ 32 /\
    s' = set_next_update (next_update s') (set_time_step (time_step s') s) /\
    (speed = 500 -> steps s = 3 -> time_step s' = 40000).
Proof.
  intros Hspeed Hsteps.
  rewrite motor_set_speed_eq by lia. cbv zeta.
  rewrite time_step_exact by assumption.
  eexists. split; [reflexivity |]. fields.
  repeat split. intros -> ->. reflexivity.
Qed.

Lemma set_speed_time_step_witness :
  exists s',
    motor_set_speed simple0 500 simple0_board = Returned (s', simple0_board) /\
    time_step s' = 60000000 / 500 / steps simple0 /\
    next_update s' = (reading simple0_board + time_step s') mod 2 ^ 32 /\
    s' = set_next_update (next_update s')
           (set_time_step (time_step s') simple0) /\
    (500 = 500 -> steps simple0 = 3 -> time_step s' = 40000).
Proof.
  apply (set_speed_time_step simple0 500 simple0_board); cbn; lia.
Defined.

(** ** Pin levels *)

Lemma pin_level_app (t u : list event) (pin : Z) :
  pin_level (t ++ u) pin =
  match pin_level u pin with
  | Some l => Some l
  | None => pin_level t pin
  end.
Proof.
  induction t as [| e t IH]; cbn [app pin_level].
  - now destruct (pin_level u pin).
  - rewrite IH. now destruct (pin_level u pin).
Qed.

Lemma pins_read_writes (s : Sequence) (b : Board) (l1 l2 l3 : level) :
  pins_distinct s ->
  pins_read (log b (writes s l1 l2 l3)) s = (Some l1, Some l2, Some l3).
Proof.
  intros (H12 & H13 & H23).
  unfold pins_read, log, writes. cbn [trace].
  rewrite !pin_level_app. cbn [pin_level].
  rewrite !Z.eqb_refl.
  apply not_eq_sym in H12 as H21. apply not_eq_sym in H13 as H31.
  apply not_eq_sym in H23 as H32.
  apply Z.eqb_neq in H12, H13, H23, H21, H31, H32.
  rewrite ?H12, ?H13, ?H23, ?H21, ?H31, ?H32. reflexivity.
Qed.

Lemma phase_level_high (phase pos : Z) :
  phase_level phase pos = HIGH <-> Z.land phase pos <> 0.
Proof.
  unfold phase_level, truthy.
  destruct (Z.eqb_spec (Z.land phase pos) 0) as [E | E]; cbn [negb];
    split; intros H; congruence.
Qed.

Lemma phase_level_low (phase pos : Z) :
  phase_level phase pos = LOW <-> Z.land phase pos = 0.
Proof.
  unfold phase_level, truthy.
  destruct (Z.eqb_spec (Z.land phase pos) 0) as [E | E]; cbn [negb];
    split; intros H; congruence.
Qed.

Lemma pattern_writes_eq (s : Sequence) :
  pattern_writes s =
  writes s (phase_level (phase1 s) (position s))
           (phase_level (phase2 s) (position s))
           (phase_level (phase3 s) (position s)).
Proof. reflexivity. Qed.

(** C8 (pin outputs).  When [running] is true, [motor_apply] returns after
    exactly three writes, to [pin1], [pin2] and [pin3] in this order; each
    level is HIGH iff the pin's phase mask ANDed with [position] is non-zero
    and LOW iff it is zero, and with three different pins these are the
    levels the pins then show.  For the simple pattern (masks 4, 2, 1,
    limit 8) at position 1 the levels are (LOW, LOW, HIGH); one unpaced
    [motor_step] from there moves to position 2 and writes
    (LOW, HIGH, LOW). *)
Theorem apply_pins (s : Sequence) (b : Board) :
  running s = true ->
  (exists l1 l2 l3,
     motor_apply s b = Returned (tt, log b (writes s l1 l2 l3)) /\
     (l1 = HIGH <-> Z.land (phase1 s) (position s) <> 0) /\
     (l1 = LOW <-> Z.land (phase1 s) (position s) = 0) /\
     (l2 = HIGH <-> Z.land (phase2 s) (position s) <> 0) /\
     (l2 = LOW <-> Z.land (phase2 s) (position s) = 0) /\
     (l3 = HIGH <-> Z.land (phase3 s) (position s) <> 0) /\
     (l3 = LOW <-> Z.land (phase3 s) (position s) = 0) /\
     (pins_distinct s ->
      pins_read (log b (writes s l1 l2 l3)) s = (Some l1, Some l2, Some l3)))
  /\
  (simple_pattern s -> limit s = 8 -> position s = 1 ->
   motor_apply s b = Returned (tt, log b (writes s LOW LOW HIGH)) /\
   (speed_control s = false ->
    exists s',
      motor_step s b = Returned (true, s', log b (writes s LOW HIGH LOW)) /\
      position s' = 2)).
Proof.
  intros Hrun. split.
  - exists (phase_level (phase1 s) (position s)),
           (phase_level (phase2 s) (position s)),
           (phase_level (phase3 s) (position s)).
    rewrite motor_apply_eq, Hrun, pattern_writes_eq.
    split; [reflexivity |].
    repeat (split; [first [apply phase_level_high | apply phase_level_low] |]).
    apply pins_read_writes.
  - intros (H1 & H2 & H3 & Hst) Hlim Hpos. split.
    + rewrite motor_apply_eq, Hrun, pattern_writes_eq, H1, H2, H3, Hpos.
      reflexivity.
    + intros Hsc.
      rewrite motor_step_eq, gate_unpaced, rescheduled_unpaced by exact Hsc.
      cbv zeta. rewrite Hrun, pattern_writes_eq. fields.
      unfold forward_position. rewrite H1, H2, H3, Hpos, Hlim.
      eexists. split; reflexivity.
Qed.

Lemma apply_pins_witness :
  (exists l1 l2 l3,
     motor_apply simple0 simple0_board
       = Returned (tt, log simple0_board (writes simple0 l1 l2 l3)) /\
     (l1 = HIGH <-> Z.land (phase1 simple0) (position simple0) <> 0) /\
     (l1 = LOW <-> Z.land (phase1 simple0) (position simple0) = 0) /\
     (l2 = HIGH <-> Z.land (phase2 simple0) (position simple0) <> 0) /\
     (l2 = LOW <-> Z.land (phase2 simple0) (position simple0) = 0) /\
     (l3 = HIGH <-> Z.land (phase3 simple0) (position simple0) <> 0) /\
     (l3 = LOW <-> Z.land (phase3 simple0) (position simple0) = 0) /\
     (pins_distinct simple0 ->
      pins_read (log simple0_board (writes simple0 l1 l2 l3)) simple0
        = (Some l1, Some l2, Some l3))) /\
  motor_apply simple0 simple0_board
    = Returned (tt, log simple0_board (writes simple0 LOW LOW HIGH)) /\
  exists s',
    motor_step simple0 simple0_board
      = Returned (true, s', log simple0_board (writes simple0 LOW HIGH LOW)) /\
    position s' = 2.
Proof.
  destruct (apply_pins simple0 simple0_board eq_refl) as (Hgen & Hex).
  split; [exact Hgen |].
  destruct Hex as (Happly & Hstep).
  - repeat split.
  - reflexivity.
  - reflexivity.
  - split; [exact Happly | exact (Hstep eq_refl)].
Defined.

(** ** Release and resume *)

Lemma exec_released (c : call) (s : Sequence) (b : Board) :
  running s = false -> stepping c = true ->
  exists s' b',
    exec c s b = Returned (s', b') /\ trace b' = trace b /\
    running s' = false.
Proof.
  intros Hrun Hc.
  pose proof (rescheduled_fields s)
    as (_ & _ & _ & _ & _ & _ & _ & _ & _ & Rrun & _).
  destruct c; try discriminate; unfold exec, bind.
  - rewrite motor_step_eq, Hrun.
    destruct (gate s b); cbv zeta; unfold ret; do 2 eexists;
      (split; [reflexivity |]); rewrite ?log_nil; fields; split; congruence.
  - rewrite motor_step_backward_eq, Hrun.
    destruct (gate s b); cbv zeta; unfold ret; do 2 eexists;
      (split; [reflexivity |]); rewrite ?log_nil; fields; split; congruence.
  - unfold elapse, ret. do 2 eexists. split; [reflexivity |]. now fields.
Qed.

Lemma run_released (cs : list call) :
  forall s b,
    running s = false -> forallb stepping cs = true ->
    exists s' b',
      run cs s b = Returned (s', b') /\ trace b' = trace b /\
      running s' = false.
Proof.
  induction cs as [| c cs IH]; intros s b Hrun Hcs; cbn [run].
  - exists s, b. unfold ret. auto.
  - cbn [forallb] in Hcs. apply andb_prop in Hcs as (Hc & Hcs).
    destruct (exec_released c s b Hrun Hc) as (s1 & b1 & E & Ht & Hrun1).
    destruct (IH s1 b1 Hrun1 Hcs) as (s' & b' & E' & Ht' & Hrun').
    exists s', b'. unfold bind. rewrite E, E'.
    split; [reflexivity |]. split; congruence.
Qed.

(** C9, as stated, fails when speed control is on and the gate is closed.
    After [motor_initialize(11, 12, 13, SEQUENCE_SIMPLE)],
    [motor_set_speed_control(true)] and [motor_release] at time 0
    ([next_update] is 40000): a [motor_step] call returns [false] and
    [position] stays 1; after [motor_resume] the next [motor_step] call
    returns [false] as well, writes no pin and leaves all three pins LOW. *)
Lemma released_paced_step_example :
  reachable paced_released paced_released_board /\
  motor_step paced_released paced_released_board
    = Returned (false, paced_released, paced_released_board) /\
  motor_resume paced_released paced_released_board
    = Returned (set_running true paced_released, paced_released_board) /\
  motor_step (set_running true paced_released) paced_released_board
    = Returned (false, set_running true paced_released,
                paced_released_board) /\
  pins_read paced_released_board paced_released
    = (Some LOW, Some LOW, Some LOW).
Proof.
  split; [exact paced_released_reachable |]. repeat split.
Qed.

(** C9, amended.  [motor_release] clears [running] and writes the three
    pins LOW at once.  While [running] is false, no sequence of
    [motor_step] and [motor_step_backward] calls (with any delays) writes
    any pin, and [running] stays false; each such call that passes the
    pacing gate still moves [position] (forward or backward, with wrap) and
    returns [true], and a call the gate suppresses returns [false] and
    changes nothing.  [motor_resume] sets [running] and writes no pin; the
    next step call that passes the gate writes the pattern of the new
    position, and a suppressed one writes nothing. *)
Theorem release_then_resume (s r : Sequence) (b br : Board) (cs : list call) :
  running r = false -> forallb stepping cs = true ->
  motor_release s b
    = Returned (set_running false s, log b (writes s LOW LOW LOW)) /\
  (exists r' b',
     run cs r br = Returned (r', b') /\ trace b' = trace br /\
     running r' = false) /\
  motor_step r br =
    (if gate r br
     then Returned (true, set_position (forward_position r) (rescheduled r), br)
     else Returned (false, r, br)) /\
  motor_step_backward r br =
    (if gate r br
     then Returned (true, set_position (backward_position r) (rescheduled r), br)
     else Returned (false, r, br)) /\
  motor_resume r br = Returned (set_running true r, br) /\
  (exists q bq rq,
     motor_step (set_running true r) br = Returned (rq, q, bq) /\
     rq = gate r br /\
     if rq
     then position q = forward_position r /\
          bq = log br (pattern_writes q)
     else q = set_running true r /\ bq = br) /\
  (exists q bq rq,
     motor_step_backward (set_running true r) br = Returned (rq, q, bq) /\
     rq = gate r br /\
     if rq
     then position q = backward_position r /\
          bq = log br (pattern_writes q)
     else q = set_running true r /\ bq = br).
Proof.
  intros Hrun Hcs.
  split; [apply motor_release_eq |].
  split; [now apply run_released |].
  split; [rewrite motor_step_eq, Hrun; cbv zeta; now rewrite log_nil |].
  split; [rewrite motor_step_backward_eq, Hrun; cbv zeta; now rewrite log_nil |].
  split; [reflexivity |].
  assert (Hg : gate (set_running true r) br = gate r br) by reflexivity.
  split.
  - rewrite motor_step_eq, Hg. cbv zeta. fields.
    destruct (gate r br); do 3 eexists; (split; [reflexivity |]);
      (split; [reflexivity |]); cbv iota; split; try reflexivity.
  - rewrite motor_step_backward_eq, Hg. cbv zeta. fields.
    destruct (gate r br); do 3 eexists; (split; [reflexivity |]);
      (split; [reflexivity |]); cbv iota; split; try reflexivity.
Qed.

Lemma release_then_resume_witness :
  motor_release simple0 simple0_board
    = Returned (set_running false simple0,
                log simple0_board (writes simple0 LOW LOW LOW)) /\
  (exists r' b',
     run [Step; Elapse 50000; StepBackward] paced_released paced_released_board
       = Returned (r', b') /\
     trace b' = trace paced_released_board /\ running r' = false) /\
  motor_step paced_released paced_released_board
    = Returned (false, paced_released, paced_released_board).
Proof.
  destruct (release_then_resume simple0 paced_released simple0_board
              paced_released_board [Step; Elapse 50000; StepBackward]
              eq_refl eq_refl)
    as (Hrel & Hrun & Hstep & _).
  split; [exact Hrel |]. split; [exact Hrun | exact Hstep].
Defined.

(** ** Energized phases *)

Lemma masks_cover (s : Sequence) (k : Z) :
  well_formed s -> 0 <= k < steps s ->
  Z.testbit (phase1 s) k || Z.testbit (phase2 s) k || Z.testbit (phase3 s) k
  = true.
Proof.
  intros ([(H1 & H2 & H3 & Hst) | (H1 & H2 & H3 & Hst)] & _) Hk;
    rewrite H1, H2, H3; rewrite Hst in Hk.
  - assert (k = 0 \/ k = 1 \/ k = 2) as [-> | [-> | ->]] by lia; reflexivity.
  - assert (k = 0 \/ k = 1 \/ k = 2 \/ k = 3 \/ k = 4 \/ k = 5)
      as [-> | [-> | [-> | [-> | [-> | ->]]]]] by lia; reflexivity.
Qed.

Lemma pattern_has_high (s : Sequence) :
  well_formed s ->
  phase_level (phase1 s) (position s) = HIGH \/
  phase_level (phase2 s) (position s) = HIGH \/
  phase_level (phase3 s) (position s) = HIGH.
Proof.
  intros H.
  enum_wf H; rewrite Hph1, Hph2, Hph3, Hpos;
    first [ left; reflexivity
          | right; left; reflexivity
          | right; right; reflexivity ].
Qed.

Lemma applied_pattern_high (s s' : Sequence) (b : Board) :
  well_formed s' ->
  pin1 s' = pin1 s -> pin2 s' = pin2 s -> pin3 s' = pin3 s ->
  exists l1 l2 l3,
    log b (pattern_writes s') = log b (writes s l1 l2 l3) /\
    (l1 = HIGH \/ l2 = HIGH \/ l3 = HIGH) /\
    (pins_distinct s ->
     pins_read (log b (writes s l1 l2 l3)) s
     <> (Some LOW, Some LOW, Some LOW)).
Proof.
  intros Hwf E1 E2 E3.
  exists (phase_level (phase1 s') (position s')),
         (phase_level (phase2 s') (position s')),
         (phase_level (phase3 s') (position s')).
  split; [rewrite pattern_writes_eq; unfold writes; now rewrite E1, E2, E3 |].
  split; [now apply pattern_has_high |].
  intros Hd. rewrite pins_read_writes by exact Hd.
  destruct (pattern_has_high s' Hwf) as [H | [H | H]]; rewrite H; discriminate.
Qed.

(** C10 (no dead position).  In every reachable state, hence for both
    built-in patterns, each bit index below [steps] (each valid position
    [2^k]) is set in at least one of the three phase masks.  Therefore a
    [motor_step] or [motor_step_backward] call on a running sequence that
    passes the gate writes three levels of which at least one is HIGH, and
    with three different pins the pins do not all show LOW afterwards; a
    call that is suppressed, or made while released, writes nothing. *)
Theorem energized_phase (s : Sequence) (b : Board) :
  reachable s b ->
  (forall k, 0 <= k < steps s ->
     Z.testbit (phase1 s) k || Z.testbit (phase2 s) k || Z.testbit (phase3 s) k
     = true) /\
  (exists r s' b',
     motor_step s b = Returned (r, s', b') /\
     if running s && r
     then exists l1 l2 l3,
            b' = log b (writes s l1 l2 l3) /\
            (l1 = HIGH \/ l2 = HIGH \/ l3 = HIGH) /\
            (pins_distinct s ->
             pins_read b' s <> (Some LOW, Some LOW, Some LOW))
     else trace b' = trace b) /\
  (exists r s' b',
     motor_step_backward s b = Returned (r, s', b') /\
     if running s && r
     then exists l1 l2 l3,
            b' = log b (writes s l1 l2 l3) /\
            (l1 = HIGH \/ l2 = HIGH \/ l3 = HIGH) /\
            (pins_distinct s ->
             pins_read b' s <> (Some LOW, Some LOW, Some LOW))
     else trace b' = trace b).
Proof.
  intros Hr. apply reachable_well_formed in Hr.
  pose proof (rescheduled_fields s)
    as (P1 & P2 & P3 & R1 & R2 & R3 & R4 & R5 & R6 & _).
  split; [intros k; now apply masks_cover |].
  split.
  - rewrite motor_step_eq.
    destruct (gate s b); cbv zeta; do 3 eexists; (split; [reflexivity |]);
      destruct (running s); cbn [andb]; rewrite ?log_nil; try reflexivity.
    set (s' := set_position (forward_position s) (rescheduled s)).
    assert (Hwf : well_formed s')
      by (apply (well_formed_forward s); subst s'; fields; auto).
    destruct (applied_pattern_high s s' b Hwf P1 P2 P3)
      as (l1 & l2 & l3 & E & Hh & Hd).
    exists l1, l2, l3. rewrite E. auto.
  - rewrite motor_step_backward_eq.
    destruct (gate s b); cbv zeta; do 3 eexists; (split; [reflexivity |]);
      destruct (running s); cbn [andb]; rewrite ?log_nil; try reflexivity.
    set (s' := set_position (backward_position s) (rescheduled s)).
    assert (Hwf : well_formed s')
      by (apply (well_formed_backward s); subst s'; fields; auto).
    destruct (applied_pattern_high s s' b Hwf P1 P2 P3)
      as (l1 & l2 & l3 & E & Hh & Hd).
    exists l1, l2, l3. rewrite E. auto.
Qed.

Lemma energized_phase_witness :
  (forall k, 0 <= k < steps overlap_top ->
     Z.testbit (phase1 overlap_top) k || Z.testbit (phase2 overlap_top) k
     || Z.testbit (phase3 overlap_top) k = true) /\
  (exists r s' b',
     motor_step overlap_top overlap_top_board = Returned (r, s', b') /\
     if running overlap_top && r
     then exists l1 l2 l3,
            b' = log overlap_top_board (writes overlap_top l1 l2 l3) /\
            (l1 = HIGH \/ l2 = HIGH \/ l3 = HIGH) /\
            (pins_distinct overlap_top ->
             pins_read b' overlap_top <> (Some LOW, Some LOW, Some LOW))
     else trace b' = trace overlap_top_board).
Proof.
  destruct (energized_phase overlap_top overlap_top_board) as (Hm & Hf & _).
  - exists 11, 12, 13, SEQUENCE_OVERLAP, board0, [StepBackward]. reflexivity.
  - split; [exact Hm | exact Hf].
Defined.

(** * Further properties of the code *)

(** ** Sessions: invariants by induction on the calls *)

Lemma run_invariant (P : Sequence -> Board -> Prop) :
  (forall c s b s' b',
     reachable s b -> P s b -> exec c s b = Returned (s', b') -> P s' b') ->
  forall cs s b s' b',
    reachable s b -> P s b -> run cs s b = Returned (s', b') -> P s' b'.
Proof.
  intros Hstep cs. induction cs as [| c cs IH]; intros s b s' b' Hr HP; cbn [run].
  - unfold ret. now intros [= <- <-].
  - unfold bind at 1.
    destruct (exec c s b) as [[s1 b1] |] eqn:E; [| discriminate].
    apply IH.
    + eapply reachable_exec; eassumption.
    + eapply Hstep; eassumption.
Qed.

Lemma reachable_invariant (P : Sequence -> Board -> Prop) :
  (forall p1 p2 p3 type b0 s b,
     motor_initialize p1 p2 p3 type b0 = Returned (s, b) -> P s b) ->
  (forall c s b s' b',
     reachable s b -> P s b -> exec c s b = Returned (s', b') -> P s' b') ->
  forall s b, reachable s b -> P s b.
Proof.
  intros Hinit Hstep s b (p1 & p2 & p3 & type & b0 & cs & H).
  unfold bind in H.
  destruct (motor_initialize p1 p2 p3 type b0) as [[s0 b1] |] eqn:E;
    [| discriminate].
  eapply (run_invariant P Hstep cs s0 b1); [| | exact H].
  - eapply reachable_init; exact E.
  - eapply Hinit; exact E.
Qed.

Lemma motor_set_speed_returned (s s' : Sequence) (speed : Z) (b b' : Board) :
  motor_set_speed s speed b = Returned (s', b') ->
  speed <> 0 /\ steps s <> 0 /\ b' = b /\
  s' = set_next_update (next_update s') (set_time_step (time_step s') s).
Proof.
  destruct (Z.eq_dec speed 0) as [-> | Hspeed];
    [rewrite motor_set_speed_zero; discriminate |].
  destruct (Z.eq_dec (steps s) 0) as [Hst | Hst].
  - unfold motor_set_speed, bind, c_div. rewrite Hst.
    destruct (speed =? 0); discriminate.
  - rewrite motor_set_speed_eq by assumption. cbv zeta.
    intros [= <- <-]. repeat split; assumption.
Qed.







Lemma exec_same_config (c : call) (s s' : Sequence) (b b' : Board) :
  exec c s b = Returned (s', b') -> same_config s s'.
Proof.
  pose proof (rescheduled_fields s)
    as (P1 & P2 & P3 & R1 & R2 & R3 & R4 & R5 & _).
  unfold same_config. destruct c; unfold exec, bind.
  - rewrite motor_step_eq.
    destruct (gate s b); cbv zeta; unfold ret; intros [= <- _]; fields;
      repeat split; auto.
  - rewrite motor_step_backward_eq.
    destruct (gate s b); cbv zeta; unfold ret; intros [= <- _]; fields;
      repeat split; auto.
  - unfold motor_set_speed_control, ret. intros [= <- _]. repeat split.
  - intros H. apply motor_set_speed_returned in H as (_ & _ & _ & ->).
    repeat split.
  - rewrite motor_apply_eq. unfold ret. intros [= <- _]. repeat split.
  - rewrite motor_release_eq. intros [= <- _]. repeat split.
  - unfold motor_resume, ret. intros [= <- _]. repeat split.
  - unfold elapse, ret. intros [= <- _]. repeat split.
Qed.

(** X3.  No call changes the configuration: after any session that
    returns, the three pins, the three phase masks, [limit] and [steps] are
    those the session started with. *)
Theorem config_immutable (cs : list call) :
  forall s b s' b',
    run cs s b = Returned (s', b') -> same_config s s'.
Proof.
  induction cs as [| c cs IH]; intros s b s' b'; cbn [run].
  - unfold ret. intros [= <- _]. unfold same_config. repeat split.
  - unfold bind at 1.
    destruct (exec c s b) as [[s1 b1] |] eqn:E; [| discriminate].
    intros H. apply exec_same_config in E. apply IH in H.
    unfold same_config in *. intuition congruence.
Qed.

Lemma config_immutable_witness :
  exists s' b',
    run [Step; SetSpeed 100; Release; StepBackward; SetSpeedControl true]
      simple0 simple0_board = Returned (s', b') /\
    same_config simple0 s'.
Proof.
  do 2 eexists. split.
  - vm_compute. reflexivity.
  - eapply (config_immutable
              [Step; SetSpeed 100; Release; StepBackward; SetSpeedControl true]
              simple0 simple0_board).
    vm_compute. reflexivity.
Defined.

(** ** What is written, and where *)

Lemma writes_library (s : Sequence) (l1 l2 l3 : level) :
  forallb (library_event (pin1 s) (pin2 s) (pin3 s)) (writes s l1 l2 l3)
  = true.
Proof.
  cbn [forallb library_event writes].
  rewrite !Z.eqb_refl, !orb_true_r. reflexivity.
Qed.

Lemma exec_trace (c : call) (s s' : Sequence) (b b' : Board) :
  exec c s b = Returned (s', b') ->
  exists added,
    trace b' = trace b ++ added /\
    forallb (library_event (pin1 s) (pin2 s) (pin3 s)) added = true.
Proof.
  pose proof (rescheduled_fields s) as (P1 & P2 & P3 & _).
  assert (Hnil : forall t : list event, t = t ++ []) 
    by (intros t; now rewrite app_nil_r).
  assert (Hpat : forall q, pin1 q = pin1 s -> pin2 q = pin2 s ->
                           pin3 q = pin3 s ->
            forallb (library_event (pin1 s) (pin2 s) (pin3 s))
              (if running s then pattern_writes q else []) = true).
  { intros q E1 E2 E3. destruct (running s); [| reflexivity].
    rewrite pattern_writes_eq. unfold writes. rewrite E1, E2, E3.
    apply writes_library. }
  destruct c; unfold exec, bind.
  - rewrite motor_step_eq.
    destruct (gate s b); cbv zeta; unfold ret; intros [= _ <-].
    + eexists. split; [reflexivity |]. apply Hpat; fields; assumption.
    + exists []. split; [apply Hnil | reflexivity].
  - rewrite motor_step_backward_eq.
    destruct (gate s b); cbv zeta; unfold ret; intros [= _ <-].
    + eexists. split; [reflexivity |]. apply Hpat; fields; assumption.
    + exists []. split; [apply Hnil | reflexivity].
  - unfold motor_set_speed_control, ret. intros [= _ <-].
    exists []. split; [apply Hnil | reflexivity].
  - intros H. apply motor_set_speed_returned in H as (_ & _ & -> & _).
    exists []. split; [apply Hnil | reflexivity].
  - rewrite motor_apply_eq. unfold ret. intros [= _ <-].
    eexists. split; [reflexivity |]. apply Hpat; reflexivity.
  - rewrite motor_release_eq. intros [= _ <-].
    eexists. split; [reflexivity |]. apply (writes_library s LOW LOW LOW).
  - unfold motor_resume, ret. intros [= _ <-].
    exists []. split; [apply Hnil | reflexivity].
  - unfold elapse, ret. intros [= _ <-].
    exists []. split; [apply Hnil | reflexivity].
Qed.

Lemma run_trace (cs : list call) :
  forall s s' b b',
    run cs s b = Returned (s', b') ->
    exists added,
      trace b' = trace b ++ added /\
      forallb (library_event (pin1 s) (pin2 s) (pin3 s)) added = true.
Proof.
  induction cs as [| c cs IH]; intros s s' b b'; cbn [run].
  - unfold ret. intros [= _ <-]. exists []. now rewrite app_nil_r.
  - unfold bind at 1.
    destruct (exec c s b) as [[s1 b1] |] eqn:E; [| discriminate].
    intros H. apply IH in H as (added' & Ht' & Hall').
    destruct (exec_same_config c s s1 b b1 E) as (E1 & E2 & E3 & _).
    apply exec_trace in E as (added & Ht & Hall).
    rewrite E1, E2, E3 in Hall'.
    exists (added ++ added'). split.
    + rewrite Ht', Ht, app_assoc. reflexivity.
    + rewrite forallb_app, Hall, Hall'. reflexivity.
Qed.

(** X4.  Whatever the session, the library only ever touches its own pins:
    everything added to the board's trace by [motor_initialize] on pins
    [p1], [p2], [p3] and any calls that follow is a [pinMode] to OUTPUT of
    [p1] or [p2], or a [digitalWrite] to [p1], [p2] or [p3]. *)
Theorem only_own_pins (p1 p2 p3 : Z) (type : SequenceType)
  (cs : list call) (b0 b : Board) (s : Sequence) :
  (s0 <- motor_initialize p1 p2 p3 type ;; run cs s0) b0 = Returned (s, b) ->
  exists added,
    trace b = trace b0 ++ added /\
    forallb (library_event p1 p2 p3) added = true.
Proof.
  unfold bind. rewrite motor_initialize_eq. cbv zeta.
  intros H. apply run_trace in H as (added & Ht & Hall). fields.
  exists ([PinMode p1 OUTPUT; PinMode p2 OUTPUT; PinMode p2 OUTPUT] ++ added).
  split.
  - rewrite Ht. unfold log. fields. now rewrite app_assoc.
  - rewrite forallb_app, Hall. cbn [forallb library_event].
    rewrite !Z.eqb_refl, !orb_true_r. reflexivity.
Qed.

Lemma only_own_pins_witness :
  exists added,
    trace overlap_top_board = trace board0 ++ added /\
    forallb (library_event 11 12 13) added = true.
Proof.
  apply (only_own_pins 11 12 13 SEQUENCE_OVERLAP [StepBackward] board0
           overlap_top_board overlap_top).
  reflexivity.
Defined.

(** ** Ranges *)

Lemma wrap_ulong_range (z : Z) : 0 <= wrap_ulong z < 2 ^ 32.
Proof. unfold wrap_ulong. apply Z.mod_pos_bound. reflexivity. Qed.

Lemma reachable_timing (s : Sequence) (b : Board) :
  reachable s b ->
  0 <= time_step s < 2 ^ 32 /\ 0 <= next_update s < 2 ^ 32.
Proof.
  revert s b.
  apply (reachable_invariant
           (fun s _ => 0 <= time_step s < 2 ^ 32 /\
                       0 <= next_update s < 2 ^ 32)).
  - intros p1 p2 p3 type b0 s b. rewrite motor_initialize_eq. cbv zeta.
    intros [= <- _]. fields. split; [| apply wrap_ulong_range].
    destruct (type =? SEQUENCE_OVERLAP); lia.
  - intros c s b s' b' _ (Hts & Hnu).
    assert (Hres : 0 <= time_step (rescheduled s) < 2 ^ 32 /\
                   0 <= next_update (rescheduled s) < 2 ^ 32).
    { unfold rescheduled. destruct (speed_control s); fields;
        split; auto using wrap_ulong_range. }
    destruct c; unfold exec, bind.
    + rewrite motor_step_eq.
      destruct (gate s b); cbv zeta; unfold ret; intros [= <- _]; fields; auto.
    + rewrite motor_step_backward_eq.
      destruct (gate s b); cbv zeta; unfold ret; intros [= <- _]; fields; auto.
    + unfold motor_set_speed_control, ret. intros [= <- _]. fields. auto.
    + intros H. pose proof H as H'.
      apply motor_set_speed_returned in H as (Hsp & Hst & _ & _).
      rewrite motor_set_speed_eq in H' by assumption. cbv zeta in H'.
      injection H' as <- _. fields. split; apply wrap_ulong_range.
    + rewrite motor_apply_eq. unfold ret. intros [= <- _]. auto.
    + rewrite motor_release_eq. intros [= <- _]. fields. auto.
    + unfold motor_resume, ret. intros [= <- _]. fields. auto.
    + unfold elapse, ret. intros [= <- _]. auto.
Qed.

(** X5.  In every reachable state each field holds a value of its C type
    (the 8-bit fields are below 256, the two [unsigned long] fields below
    2^32), and neither shift loses a bit: the 8-bit truncation after
    [position <<= 1] leaves [2 * position], and [limit] is the untruncated
    [1 << steps]. *)
Theorem reachable_fits_types (s : Sequence) (b : Board) :
  reachable s b ->
  fits_types s /\
  wrap_uchar (Z.shiftl (position s) 1) = 2 * position s /\
  limit s = Z.shiftl 1 (steps s).
Proof.
  intros Hr. destruct (reachable_timing s b Hr) as (Hts & Hnu).
  apply reachable_well_formed in Hr. unfold fits_types.
  enum_wf Hr; rewrite Hph1, Hph2, Hph3, Hlim, Hst, Hpos;
    repeat match goal with |- _ /\ _ => split end;
    first [assumption | reflexivity | lia].
Qed.

Lemma reachable_fits_types_witness :
  fits_types overlap_top /\
  wrap_uchar (Z.shiftl (position overlap_top) 1) = 2 * position overlap_top /\
  limit overlap_top = Z.shiftl 1 (steps overlap_top).
Proof.
  apply (reachable_fits_types overlap_top overlap_top_board).
  exists 11, 12, 13, SEQUENCE_OVERLAP, board0, [StepBackward]. reflexivity.
Defined.

(** ** Position as a cycle index *)

Lemma set_position_position (s : Sequence) : set_position (position s) s = s.
Proof. now destruct s. Qed.

Lemma forward_unpaced_state (dts : list Z) :
  forall s b k,
    well_formed s -> speed_control s = false ->
    0 <= k < steps s -> position s = 2 ^ k ->
    exists b',
      forward dts s b =
      Returned (repeat true (length dts),
                set_position (2 ^ ((k + Z.of_nat (length dts)) mod steps s)) s,
                b').
Proof.
  induction dts as [| dt dts IH]; intros s b k Hwf Hsc Hk Hpos.
  - exists b. cbn [forward length repeat].
    rewrite Z.add_0_r, Z.mod_small, <- Hpos, set_position_position by lia.
    reflexivity.
  - cbn [forward length repeat].
    unfold bind at 1, elapse. unfold bind at 1. rewrite motor_step_eq.
    rewrite gate_unpaced by exact Hsc. cbv zeta.
    rewrite rescheduled_unpaced by exact Hsc.
    set (s1 := set_position (forward_position s) s).
    assert (Hwf1 : well_formed s1)
      by (apply (well_formed_forward s); subst s1; fields; auto).
    destruct (IH s1 (log (mkBoard (clock b + dt) (trace b))
                       (if running s then pattern_writes s1 else []))
                ((k + 1) mod steps s) Hwf1 Hsc)
      as (b' & Hrun).
    + subst s1; fields. apply Z.mod_pos_bound. lia.
    + subst s1; fields. now apply forward_position_pow2.
    + exists b'. unfold bind. rewrite Hrun. unfold ret. subst s1. fields.
      rewrite Z.add_mod_idemp_l by lia.
      replace (k + 1 + Z.of_nat (length dts))
        with (k + Z.of_nat (S (length dts))) by lia.
      reflexivity.
Qed.

Lemma backward_unpaced_state (dts : list Z) :
  forall s b k,
    well_formed s -> speed_control s = false ->
    0 <= k < steps s -> position s = 2 ^ k ->
    exists b',
      backward dts s b =
      Returned (repeat true (length dts),
                set_position (2 ^ ((k - Z.of_nat (length dts)) mod steps s)) s,
                b').
Proof.
  induction dts as [| dt dts IH]; intros s b k Hwf Hsc Hk Hpos.
  - exists b. cbn [backward length repeat].
    rewrite Z.sub_0_r, Z.mod_small, <- Hpos, set_position_position by lia.
    reflexivity.
  - cbn [backward length repeat].
    unfold bind at 1, elapse. unfold bind at 1. rewrite motor_step_backward_eq.
    rewrite gate_unpaced by exact Hsc. cbv zeta.
    rewrite rescheduled_unpaced by exact Hsc.
    set (s1 := set_position (backward_position s) s).
    assert (Hwf1 : well_formed s1)
      by (apply (well_formed_backward s); subst s1; fields; auto).
    destruct (IH s1 (log (mkBoard (clock b + dt) (trace b))
                       (if running s then pattern_writes s1 else []))
                ((k - 1) mod steps s) Hwf1 Hsc)
      as (b' & Hrun).
    + subst s1; fields. apply Z.mod_pos_bound. lia.
    + subst s1; fields. now apply backward_position_pow2.
    + exists b'. unfold bind. rewrite Hrun. unfold ret. subst s1. fields.
      rewrite Zminus_mod_idemp_l.
      replace (k - 1 - Z.of_nat (length dts))
        with (k - Z.of_nat (S (length dts))) by lia.
      reflexivity.
Qed.

(** X6.  With speed control off, position is a cycle index in disguise:
    from a reachable state at [position = 2^k], [n] calls of [motor_step]
    all return [true] and lead to [2^((k + n) mod steps)], and [n] calls of
    [motor_step_backward] all return [true] and lead to
    [2^((k - n) mod steps)]; nothing else in the structure changes. *)
Theorem cycle_index_law (s : Sequence) (b : Board) (dts : list Z) (k : Z) :
  reachable s b -> speed_control s = false ->
  0 <= k < steps s -> position s = 2 ^ k ->
  (exists b',
     forward dts s b =
     Returned (repeat true (length dts),
               set_position (2 ^ ((k + Z.of_nat (length dts)) mod steps s)) s,
               b')) /\
  (exists b',
     backward dts s b =
     Returned (repeat true (length dts),
               set_position (2 ^ ((k - Z.of_nat (length dts)) mod steps s)) s,
               b')).
Proof.
  intros Hr Hsc Hk Hpos. apply reachable_well_formed in Hr.
  split; [now apply forward_unpaced_state | now apply backward_unpaced_state].
Qed.

Lemma cycle_index_law_witness :
  (exists b',
     forward [3; 0; 9; 1] overlap_top overlap_top_board =
     Returned (repeat true (length [3; 0; 9; 1]),
               set_position
                 (2 ^ ((5 + Z.of_nat (length [3; 0; 9; 1]))
                       mod steps overlap_top)) overlap_top,
               b')) /\
  (exists b',
     backward [3; 0; 9; 1] overlap_top overlap_top_board =
     Returned (repeat true (length [3; 0; 9; 1]),
               set_position
                 (2 ^ ((5 - Z.of_nat (length [3; 0; 9; 1]))
                       mod steps overlap_top)) overlap_top,
               b')).
Proof.
  apply (cycle_index_law overlap_top overlap_top_board [3; 0; 9; 1] 5).
  - exists 11, 12, 13, SEQUENCE_OVERLAP, board0, [StepBackward]. reflexivity.
  - reflexivity.
  - cbn. lia.
  - reflexivity.
Defined.

(** X7.  With speed control off, [n] forward steps followed by [n]
    backward steps (any delays) restore the whole structure of a reachable
    state, and so do [n] backward steps followed by [n] forward steps. *)
Theorem forward_backward_n (s : Sequence) (b : Board) (dts dts' : list Z) :
  reachable s b -> speed_control s = false -> length dts' = length dts ->
  (exists s1 b1 b2,
     forward dts s b = Returned (repeat true (length dts), s1, b1) /\
     backward dts' s1 b1 = Returned (repeat true (length dts'), s, b2)) /\
  (exists s1 b1 b2,
     backward dts s b = Returned (repeat true (length dts), s1, b1) /\
     forward dts' s1 b1 = Returned (repeat true (length dts'), s, b2)).
Proof.
  intros Hr Hsc Hlen. apply reachable_well_formed in Hr.
  destruct (well_formed_position s Hr) as (k & Hk & Hpos & _).
  assert (Hn : 0 < steps s) by lia.
  split.
  - destruct (forward_unpaced_state dts s b k Hr Hsc Hk Hpos) as (b1 & E1).
    set (k1 := (k + Z.of_nat (length dts)) mod steps s) in *.
    set (s1 := set_position (2 ^ k1) s) in *.
    assert (Hk1 : 0 <= k1 < steps s) by (apply Z.mod_pos_bound; lia).
    assert (Hwf1 : well_formed s1).
    { destruct Hr as (Hp & Hl & _). split; [exact Hp |].
      split; [exact Hl |]. exists k1. split; [exact Hk1 | reflexivity]. }
    destruct (backward_unpaced_state dts' s1 b1 k1 Hwf1 Hsc Hk1 eq_refl)
      as (b2 & E2).
    exists s1, b1, b2. split; [exact E1 |]. rewrite E2. subst s1. fields.
    rewrite Hlen. subst k1. rewrite Zminus_mod_idemp_l.
    replace (k + Z.of_nat (length dts) - Z.of_nat (length dts)) with k by lia.
    rewrite Z.mod_small, <- Hpos by lia.
    change (set_position (position s) (set_position _ s))
      with (set_position (position s) s).
    now rewrite set_position_position.
  - destruct (backward_unpaced_state dts s b k Hr Hsc Hk Hpos) as (b1 & E1).
    set (k1 := (k - Z.of_nat (length dts)) mod steps s) in *.
    set (s1 := set_position (2 ^ k1) s) in *.
    assert (Hk1 : 0 <= k1 < steps s) by (apply Z.mod_pos_bound; lia).
    assert (Hwf1 : well_formed s1).
    { destruct Hr as (Hp & Hl & _). split; [exact Hp |].
      split; [exact Hl |]. exists k1. split; [exact Hk1 | reflexivity]. }
    destruct (forward_unpaced_state dts' s1 b1 k1 Hwf1 Hsc Hk1 eq_refl)
      as (b2 & E2).
    exists s1, b1, b2. split; [exact E1 |]. rewrite E2. subst s1. fields.
    rewrite Hlen. subst k1. rewrite Z.add_mod_idemp_l by lia.
    replace (k - Z.of_nat (length dts) + Z.of_nat (length dts)) with k by lia.
    rewrite Z.mod_small, <- Hpos by lia.
    change (set_position (position s) (set_position _ s))
      with (set_position (position s) s).
    now rewrite set_position_position.
Qed.

Lemma forward_backward_n_witness :
  (exists s1 b1 b2,
     forward [1; 2; 3; 4] simple0 simple0_board
       = Returned (repeat true (length [1; 2; 3; 4]), s1, b1) /\
     backward [0; 0; 5; 5] s1 b1
       = Returned (repeat true (length [0; 0; 5; 5]), simple0, b2)) /\
  (exists s1 b1 b2,
     backward [1; 2; 3; 4] simple0 simple0_board
       = Returned (repeat true (length [1; 2; 3; 4]), s1, b1) /\
     forward [0; 0; 5; 5] s1 b1
       = Returned (repeat true (length [0; 0; 5; 5]), simple0, b2)).
Proof.
  apply (forward_backward_n simple0 simple0_board [1; 2; 3; 4] [0; 0; 5; 5]).
  - exists 11, 12, 13, SEQUENCE_SIMPLE, board0, []. reflexivity.
  - reflexivity.
  - reflexivity.
Defined.

(** ** Pacing *)

Lemma wrap_ulong_small (z : Z) : 0 <= z < 2 ^ 32 -> wrap_ulong z = z.
Proof. intros H. unfold wrap_ulong. now apply Z.mod_small. Qed.

Lemma gate_paced (s : Sequence) (b : Board) :
  speed_control s = true -> gate s b = (next_update s <=? reading b).
Proof. unfold gate. now intros ->. Qed.

Lemma rescheduled_paced (s : Sequence) :
  speed_control s = true ->
  rescheduled s =
  set_next_update (wrap_ulong (next_update s + time_step s)) s.
Proof. unfold rescheduled. now intros ->. Qed.

(** X8.  With speed control on, a [motor_step] made on schedule
    ([next_update <= now], and [next_update + time_step] still below the
    32-bit wrap) advances, and a second call made while the clock reading
    is still below [next_update + time_step] is suppressed: it returns
    [false], writes nothing and changes nothing. *)
Theorem paced_pair (s : Sequence) (b : Board) (dt : Z) :
  reachable s b -> speed_control s = true ->
  next_update s <= reading b ->
  next_update s + time_step s < 2 ^ 32 ->
  wrap_ulong (clock b + dt) < next_update s + time_step s ->
  exists s1 b1,
    motor_step s b = Returned (true, s1, b1) /\
    position s1 = forward_position s /\
    (elapse dt ;;; motor_step s1) b1
      = Returned (false, s1, mkBoard (clock b + dt) (trace b1)).
Proof.
  intros Hr Hsc Hdue Hfit Hearly.
  destruct (reachable_timing s b Hr) as (Hts & Hnu).
  rewrite motor_step_eq, gate_paced, rescheduled_paced by exact Hsc.
  apply Z.leb_le in Hdue. rewrite Hdue. cbv zeta.
  do 2 eexists. split; [reflexivity |]. split; [reflexivity |].
  unfold bind, elapse. rewrite motor_step_eq, gate_paced by exact Hsc.
  fields. unfold reading, log. fields.
  rewrite (wrap_ulong_small (next_update s + time_step s)) by lia.
  apply Z.leb_gt in Hearly. rewrite Hearly. reflexivity.
Qed.

Lemma paced_pair_witness :
  exists s1 b1,
    motor_step paced0 (mkBoard 40000 init_trace) = Returned (true, s1, b1) /\
    position s1 = forward_position paced0 /\
    (elapse 39999 ;;; motor_step s1) b1
      = Returned (false, s1, mkBoard (40000 + 39999) (trace b1)).
Proof.
  apply (paced_pair paced0 (mkBoard 40000 init_trace) 39999).
  - exists 11, 12, 13, SEQUENCE_SIMPLE, board0,
      [SetSpeedControl true; Elapse 40000].
    reflexivity.
  - reflexivity.
  - vm_compute. discriminate.
  - reflexivity.
  - reflexivity.
Defined.

Lemma burst_timing (n : nat) :
  forall s b,
    speed_control s = true -> 0 <= time_step s -> 0 <= next_update s ->
    next_update s + Z.of_nat n * time_step s <= reading b ->
    reading b < next_update s + (Z.of_nat n + 1) * time_step s ->
    next_update s + (Z.of_nat n + 1) * time_step s < 2 ^ 32 ->
    exists s' b',
      forward (repeat 0 (S (S n))) s b
      = Returned (repeat true (S n) ++ [false], s', b').
Proof.
  induction n as [| m IH]; intros s b Hsc Hts Hnu Hlo Hhi Hfit.
  - cbn [Z.of_nat] in *. cbn [repeat forward app].
    unfold bind at 1, elapse. unfold bind at 1.
    rewrite motor_step_eq, gate_paced, rescheduled_paced by exact Hsc.
    unfold reading in *. fields. rewrite Z.add_0_r.
    assert (E : (next_update s <=? wrap_ulong (clock b)) = true)
      by (apply Z.leb_le; lia).
    rewrite E. cbv zeta.
    unfold bind at 1. unfold bind at 1, elapse. unfold bind at 1.
    rewrite motor_step_eq, gate_paced by exact Hsc.
    unfold reading, log. fields. rewrite Z.add_0_r.
    rewrite (wrap_ulong_small (next_update s + time_step s)) by lia.
    assert (E' : (next_update s + time_step s <=? wrap_ulong (clock b)) = false)
      by (apply Z.leb_gt; lia).
    rewrite E'. do 2 eexists. reflexivity.
  - rewrite Nat2Z.inj_succ in *.
    assert (Hm : 0 <= Z.of_nat m * time_step s)
      by (apply Z.mul_nonneg_nonneg; lia).
    change (repeat 0 (S (S (S m)))) with (0 :: repeat 0 (S (S m))).
    cbn [forward].
    unfold bind at 1, elapse. unfold bind at 1.
    rewrite motor_step_eq, gate_paced, rescheduled_paced by exact Hsc.
    unfold reading in *. fields. rewrite Z.add_0_r.
    assert (E : (next_update s <=? wrap_ulong (clock b)) = true)
      by (apply Z.leb_le; lia).
    rewrite E. cbv zeta.
    set (s1 := set_position (forward_position s)
                 (set_next_update (wrap_ulong (next_update s + time_step s)) s)).
    set (b1 := log (mkBoard (clock b) (trace b))
                 (if running s then pattern_writes s1 else [])).
    assert (Hnu1 : next_update s1 = next_update s + time_step s).
    { subst s1. fields. apply wrap_ulong_small. lia. }
    destruct (IH s1 b1) as (s' & b' & Hrun).
    + exact Hsc.
    + exact Hts.
    + rewrite Hnu1. lia.
    + rewrite Hnu1. subst s1 b1. unfold log. fields. lia.
    + rewrite Hnu1. subst s1 b1. unfold log. fields. lia.
    + rewrite Hnu1. subst s1. fields. lia.
    + unfold bind. rewrite Hrun. unfold ret.
      do 2 eexists. reflexivity.
Qed.

(** X9.  With speed control on, a caller that comes late catches up in a
    burst.  If the clock reading lies [n] whole time steps or more, but less
    than [n + 1], after [next_update] (no 32-bit wrap in between), then of
    [n + 2] [motor_step] calls made at that same instant the first [n + 1]
    all advance and the next one is suppressed. *)
Theorem late_burst (s : Sequence) (b : Board) (n : nat) :
  reachable s b -> speed_control s = true ->
  next_update s + Z.of_nat n * time_step s <= reading b ->
  reading b < next_update s + (Z.of_nat n + 1) * time_step s ->
  next_update s + (Z.of_nat n + 1) * time_step s < 2 ^ 32 ->
  exists s' b',
    forward (repeat 0 (S (S n))) s b
    = Returned (repeat true (S n) ++ [false], s', b').
Proof.
  intros Hr Hsc Hlo Hhi Hfit.
  destruct (reachable_timing s b Hr) as (Hts & Hnu).
  apply burst_timing; solve [assumption | lia].
Qed.

Lemma late_burst_witness :
  exists s' b',
    forward (repeat 0 4) paced0 (mkBoard 130000 init_trace)
    = Returned ([true; true; true; false], s', b').
Proof.
  apply (late_burst paced0 (mkBoard 130000 init_trace) 2).
  - exists 11, 12, 13, SEQUENCE_SIMPLE, board0,
      [SetSpeedControl true; Elapse 130000].
    reflexivity.
  - reflexivity.
  - vm_compute. discriminate.
  - reflexivity.
  - reflexivity.
Defined.

(** X10.  [motor_set_speed] restarts the schedule from the moment of the
    call.  With speed control on and a speed above zero (and
    [now + time_step] below the 32-bit wrap), the next [motor_step],
    made [dt] later, advances exactly when the clock reading has reached
    the reading at the call plus the new [time_step]. *)
Theorem set_speed_then_step (s : Sequence) (b : Board) (speed dt : Z) :
  reachable s b -> speed_control s = true -> 0 < speed ->
  reading b + 60000000 / speed / steps s < 2 ^ 32 ->
  exists s1 r s2 b2,
    motor_set_speed s speed b = Returned (s1, b) /\
    (elapse dt ;;; motor_step s1) b = Returned (r, s2, b2) /\
    r = (reading b + 60000000 / speed / steps s <=? wrap_ulong (clock b + dt)).
Proof.
  intros Hr Hsc Hspeed Hfit. apply reachable_well_formed in Hr.
  assert (Hst : 0 < steps s) by (destruct (well_formed_steps s Hr); lia).
  rewrite motor_set_speed_eq by lia. cbv zeta.
  rewrite time_step_exact by assumption.
  set (T := 60000000 / speed / steps s) in *.
  assert (HT : 0 <= T).
  { subst T. apply Z.div_pos; [apply Z.div_pos |]; lia. }
  pose proof (wrap_ulong_range (clock b)) as Hnow. fold (reading b) in Hnow.
  rewrite (wrap_ulong_small (reading b + T)) by lia.
  exists (set_next_update (reading b + T) (set_time_step T s)).
  unfold bind, elapse. rewrite motor_step_eq, gate_paced by exact Hsc.
  fields.
  change (reading (mkBoard (clock b + dt) (trace b)))
    with (wrap_ulong (clock b + dt)).
  destruct (reading b + T <=? wrap_ulong (clock b + dt)); cbv zeta;
    do 3 eexists; split; try reflexivity; split; reflexivity.
Qed.

Lemma set_speed_then_step_witness :
  exists s1 r s2 b2,
    motor_set_speed paced0 1000 (mkBoard 7 init_trace)
      = Returned (s1, mkBoard 7 init_trace) /\
    (elapse 20000 ;;; motor_step s1) (mkBoard 7 init_trace)
      = Returned (r, s2, b2) /\
    r = (reading (mkBoard 7 init_trace) + 60000000 / 1000 / steps paced0
         <=? wrap_ulong (clock (mkBoard 7 init_trace) + 20000)).
Proof.
  apply (set_speed_then_step paced0 (mkBoard 7 init_trace) 1000 20000).
  - exists 11, 12, 13, SEQUENCE_SIMPLE, board0,
      [SetSpeedControl true; Elapse 7].
    reflexivity.
  - reflexivity.
  - lia.
  - reflexivity.
Defined.

(** X11.  A higher speed never gives a longer time step: for
    [0 < speed1 <= speed2] and a positive step count, [motor_set_speed]
    returns for both and the resulting time steps satisfy
    [0 <= time_step2 <= time_step1].  Rounding is always down, so a whole
    cycle of [steps] time steps at the requested speed never exceeds one
    minute: [time_step1 * steps * speed1 <= 60000000]. *)
Theorem time_step_antitone (s : Sequence) (b : Board) (speed1 speed2 : Z) :
  0 < speed1 -> speed1 <= speed2 -> 0 < steps s ->
  exists s1 s2,
    motor_set_speed s speed1 b = Returned (s1, b) /\
    motor_set_speed s speed2 b = Returned (s2, b) /\
    0 <= time_step s2 /\ time_step s2 <= time_step s1 /\
    time_step s1 * steps s * speed1 <= 60000000.
Proof.
  intros H1 H12 Hst.
  rewrite !motor_set_speed_eq by lia. cbv zeta.
  rewrite !time_step_exact by lia.
  do 2 eexists. split; [reflexivity |]. split; [reflexivity |]. fields.
  split; [apply Z.div_pos; [apply Z.div_pos |]; lia |].
  split.
  - apply Z.div_le_mono; [lia |].
    apply Z.div_le_compat_l; lia.
  - pose proof (Z.mul_div_le 60000000 speed1 H1) as Hq.
    pose proof (Z.mul_div_le (60000000 / speed1) (steps s) Hst) as Ht.
    assert (0 <= 60000000 / speed1 / steps s)
      by (apply Z.div_pos; [apply Z.div_pos |]; lia).
    nia.
Qed.

Lemma time_step_antitone_witness :
  exists s1 s2,
    motor_set_speed overlap_top 7 overlap_top_board
      = Returned (s1, overlap_top_board) /\
    motor_set_speed overlap_top 7200 overlap_top_board
      = Returned (s2, overlap_top_board) /\
    0 <= time_step s2 /\ time_step s2 <= time_step s1 /\
    time_step s1 * steps overlap_top * 7 <= 60000000.
Proof.
  apply (time_step_antitone overlap_top overlap_top_board 7 7200).
  - lia.
  - lia.
  - cbn. lia.
Defined.

(** X12.  When the schedule crosses the 32-bit boundary it wraps.  With
    speed control on, if a [motor_step] passes the gate while
    [next_update + time_step >= 2^32], then the new [next_update] is
    [next_update + time_step - 2^32], which is smaller than the old one, and
    a further [motor_step] at the same instant passes the gate again
    although no time step has elapsed. *)
Theorem schedule_wraps (s : Sequence) (b : Board) :
  reachable s b -> speed_control s = true ->
  next_update s <= reading b ->
  2 ^ 32 <= next_update s + time_step s ->
  exists s1 b1 s2 b2,
    motor_step s b = Returned (true, s1, b1) /\
    next_update s1 = next_update s + time_step s - 2 ^ 32 /\
    next_update s1 < next_update s /\
    motor_step s1 b1 = Returned (true, s2, b2).
Proof.
  intros Hr Hsc Hdue Hover.
  destruct (reachable_timing s b Hr) as (Hts & Hnu).
  assert (Hw : wrap_ulong (next_update s + time_step s)
               = next_update s + time_step s - 2 ^ 32).
  { unfold wrap_ulong. symmetry.
    apply (Z.mod_unique_pos _ _ 1); lia. }
  rewrite motor_step_eq, gate_paced, rescheduled_paced by exact Hsc.
  pose proof Hdue as Hdue'. apply Z.leb_le in Hdue'. rewrite Hdue'. cbv zeta.
  rewrite Hw.
  set (s1 := set_position (forward_position s)
               (set_next_update (next_update s + time_step s - 2 ^ 32) s)).
  set (b1 := log b (if running s then pattern_writes s1 else [])).
  assert (Hg : gate s1 b1 = true).
  { rewrite gate_paced by exact Hsc. apply Z.leb_le.
    subst s1 b1. unfold reading, log in *. fields. lia. }
  exists s1, b1. rewrite motor_step_eq, Hg. cbv zeta.
  do 2 eexists. split; [reflexivity |].
  subst s1. fields. split; [reflexivity |]. split; [lia | reflexivity].
Qed.

Lemma schedule_wraps_witness :
  reachable late_paced late_paced_board /\
  exists s1 b1 s2 b2,
    motor_step late_paced late_paced_board = Returned (true, s1, b1) /\
    next_update s1 = next_update late_paced + time_step late_paced - 2 ^ 32 /\
    next_update s1 < next_update late_paced /\
    motor_step s1 b1 = Returned (true, s2, b2).
Proof.
  assert (Hr : reachable late_paced late_paced_board).
  { exists 11, 12, 13, SEQUENCE_SIMPLE, late_board0,
      [SetSpeedControl true; Elapse 45000].
    reflexivity. }
  split; [exact Hr |].
  apply (schedule_wraps late_paced late_paced_board Hr).
  - reflexivity.
  - vm_compute. discriminate.
  - vm_compute. discriminate.
Defined.

(** ** Released motor *)

Lemma pin_level_low_writes (added : list event) (pin : Z) :
  forallb low_write added = true ->
  pin_level added pin = None \/ pin_level added pin = Some LOW.
Proof.
  induction added as [| e added IH]; cbn [forallb pin_level]; [auto |].
  intros H. apply andb_prop in H as (He & Hall).
  destruct (IH Hall) as [-> | ->]; [| auto].
  destruct e as [p m | p [|]]; try discriminate.
  destruct (p =? pin); auto.
Qed.

Lemma exec_released_any (c : call) (s : Sequence) (b : Board) :
  well_formed s -> running s = false -> keeps_released c = true ->
  exists s' b' added,
    exec c s b = Returned (s', b') /\ running s' = false /\
    trace b' = trace b ++ added /\ forallb low_write added = true.
Proof.
  intros Hwf Hrun Hc.
  pose proof (rescheduled_fields s)
    as (_ & _ & _ & _ & _ & _ & _ & _ & _ & Rrun & _).
  assert (Hnil : forall t : list event, t = t ++ [])
    by (intros t; now rewrite app_nil_r).
  destruct c; try discriminate; unfold exec, bind.
  - rewrite motor_step_eq, Hrun.
    destruct (gate s b); cbv zeta; unfold ret; do 2 eexists; exists [];
      (split; [reflexivity |]); rewrite ?log_nil; fields;
      (split; [congruence |]); (split; [apply Hnil | reflexivity]).
  - rewrite motor_step_backward_eq, Hrun.
    destruct (gate s b); cbv zeta; unfold ret; do 2 eexists; exists [];
      (split; [reflexivity |]); rewrite ?log_nil; fields;
      (split; [congruence |]); (split; [apply Hnil | reflexivity]).
  - unfold motor_set_speed_control, ret. do 2 eexists; exists [].
    split; [reflexivity |]. fields. split; [exact Hrun |].
    split; [apply Hnil | reflexivity].
  - cbn [keeps_released valid_call] in Hc.
    apply negb_true_iff, Z.eqb_neq in Hc.
    rewrite motor_set_speed_eq
      by (auto; destruct (well_formed_steps s Hwf); lia).
    cbv zeta. do 2 eexists; exists [].
    split; [reflexivity |]. fields. split; [exact Hrun |].
    split; [apply Hnil | reflexivity].
  - rewrite motor_apply_eq, Hrun, log_nil. unfold ret.
    do 2 eexists; exists []. split; [reflexivity |].
    split; [exact Hrun |]. split; [apply Hnil | reflexivity].
  - rewrite motor_release_eq. do 2 eexists; exists (release_writes s).
    split; [reflexivity |]. fields. split; [reflexivity |].
    split; reflexivity.
  - unfold elapse, ret. do 2 eexists; exists [].
    split; [reflexivity |]. fields. split; [exact Hrun |].
    split; [apply Hnil | reflexivity].
Qed.

Lemma run_released_any (cs : list call) :
  forall s b,
    well_formed s -> running s = false -> forallb keeps_released cs = true ->
    exists s' b' added,
      run cs s b = Returned (s', b') /\ running s' = false /\
      trace b' = trace b ++ added /\ forallb low_write added = true.
Proof.
  induction cs as [| c cs IH]; intros s b Hwf Hrun Hcs; cbn [run].
  - exists s, b, []. unfold ret. rewrite app_nil_r. auto.
  - cbn [forallb] in Hcs. apply andb_prop in Hcs as (Hc & Hcs).
    destruct (exec_released_any c s b Hwf Hrun Hc)
      as (s1 & b1 & added1 & E & Hrun1 & Ht1 & Hl1).
    assert (Hwf1 : well_formed s1) by (eapply exec_well_formed; eassumption).
    destruct (IH s1 b1 Hwf1 Hrun1 Hcs) as (s' & b' & added & E' & Hrun' & Ht & Hl).
    exists s', b', (added1 ++ added). unfold bind. rewrite E, E'.
    split; [reflexivity |]. split; [exact Hrun' |]. split.
    + rewrite Ht, Ht1, app_assoc. reflexivity.
    + rewrite forallb_app, Hl1, Hl. reflexivity.
Qed.

(** X13.  A released motor stays dark whatever the client does short of
    [motor_resume]: after any defined sequence of calls without
    [motor_resume] ([motor_step], [motor_step_backward], [motor_apply],
    [motor_set_speed], [motor_set_speed_control], [motor_release], delays)
    [running] is still false, everything written was a LOW level, and every
    pin that showed LOW still shows LOW. *)
Theorem released_stays_dark (s : Sequence) (b : Board) (cs : list call) :
  reachable s b -> running s = false -> forallb keeps_released cs = true ->
  exists s' b' added,
    run cs s b = Returned (s', b') /\ running s' = false /\
    trace b' = trace b ++ added /\ forallb low_write added = true /\
    forall pin,
      pin_level (trace b) pin = Some LOW ->
      pin_level (trace b') pin = Some LOW.
Proof.
  intros Hr Hrun Hcs. apply reachable_well_formed in Hr.
  destruct (run_released_any cs s b Hr Hrun Hcs)
    as (s' & b' & added & E & Hrun' & Ht & Hl).
  exists s', b', added. repeat (split; [assumption |]).
  intros pin Hlow. rewrite Ht, pin_level_app.
  destruct (pin_level_low_writes added pin Hl) as [-> | ->]; auto.
Qed.

Lemma released_stays_dark_witness :
  exists s' b' added,
    run [Step; Apply; SetSpeed 900; Elapse 99999; StepBackward; Release;
         SetSpeedControl false; Step]
      paced_released paced_released_board = Returned (s', b') /\
    running s' = false /\
    trace b' = trace paced_released_board ++ added /\
    forallb low_write added = true /\
    forall pin,
      pin_level (trace paced_released_board) pin = Some LOW ->
      pin_level (trace b') pin = Some LOW.
Proof.
  apply (released_stays_dark paced_released paced_released_board).
  - exists 11, 12, 13, SEQUENCE_SIMPLE, board0, [SetSpeedControl true; Release].
    reflexivity.
  - reflexivity.
  - reflexivity.
Defined.

(** ** The two patterns *)

(** X14.  [motor_apply] on a running reachable sequence writes three
    levels of which one or two are HIGH, never none and never all three:
    exactly one in the simple pattern; in the overlap pattern two at the
    even cycle indices (positions 1, 4, 16) and one at the odd ones
    (positions 2, 8, 32). *)
Theorem energized_count (s : Sequence) (b : Board) :
  reachable s b -> running s = true ->
  exists ws,
    motor_apply s b = Returned (tt, log b ws) /\
    length ws = 3%nat /\
    (1 <= high_count ws <= 2)%nat /\
    (simple_pattern s -> high_count ws = 1%nat) /\
    (overlap_pattern s ->
     high_count ws = if Z.even (Z.log2 (position s)) then 2%nat else 1%nat).
Proof.
  intros Hr Hrun. apply reachable_well_formed in Hr.
  rewrite motor_apply_eq, Hrun. exists (pattern_writes s).
  split; [reflexivity |]. split; [reflexivity |].
  unfold pattern_writes, simple_pattern, overlap_pattern.
  enum_wf Hr; rewrite Hph1, Hph2, Hph3, Hst, Hpos;
    (split; [cbn; lia |]);
    (split; intros (_ & _ & _ & H); first [discriminate | reflexivity]).
Qed.

Lemma energized_count_witness :
  exists ws,
    motor_apply overlap_top overlap_top_board
      = Returned (tt, log overlap_top_board ws) /\
    length ws = 3%nat /\
    (1 <= high_count ws <= 2)%nat /\
    (simple_pattern overlap_top -> high_count ws = 1%nat) /\
    (overlap_pattern overlap_top ->
     high_count ws
     = if Z.even (Z.log2 (position overlap_top)) then 2%nat else 1%nat).
Proof.
  apply (energized_count overlap_top overlap_top_board).
  - exists 11, 12, 13, SEQUENCE_OVERLAP, board0, [StepBackward]. reflexivity.
  - reflexivity.
Defined.

Lemma adjacent_phases (s s' : Sequence) :
  well_formed s ->
  position s' = forward_position s \/ position s' = backward_position s ->
  (overlap_pattern s -> shared_phase s s') /\
  (simple_pattern s -> ~ shared_phase s s').
Proof.
  intros Hwf Hadj. unfold shared_phase, overlap_pattern, simple_pattern.
  unfold forward_position, backward_position in Hadj.
  enum_wf Hwf; rewrite Hpos, Hlim in Hadj;
    rewrite Hph1, Hph2, Hph3, Hst, Hpos;
    (split; [intros (_ & _ & _ & H); try discriminate
            | intros (_ & _ & _ & H); try discriminate]);
    destruct Hadj as [-> | ->].
  all: try (intros (phase & [<- | [<- | [<- | []]]] & H1 & H2);
            vm_compute in H1, H2; congruence).
  all: first
         [ exists 49; split; [cbn; tauto | split; vm_compute; discriminate]
         | exists 28; split; [cbn; tauto | split; vm_compute; discriminate]
         | exists 7; split; [cbn; tauto | split; vm_compute; discriminate] ].
Qed.

(** X15.  Neighbouring positions of the overlap pattern always have an
    energized phase in common, in both directions, so a step never switches
    all energized phases at once; in the simple pattern neighbouring
    positions never share one.  Here the neighbour is the position a
    [motor_step] or [motor_step_backward] call that passes the gate moves
    to; a suppressed call leaves the structure as it is. *)
Theorem adjacent_positions_overlap (s : Sequence) (b : Board) :
  reachable s b ->
  (exists r s' b',
     motor_step s b = Returned (r, s', b') /\
     if r
     then (overlap_pattern s -> shared_phase s s') /\
          (simple_pattern s -> ~ shared_phase s s')
     else s' = s) /\
  (exists r s' b',
     motor_step_backward s b = Returned (r, s', b') /\
     if r
     then (overlap_pattern s -> shared_phase s s') /\
          (simple_pattern s -> ~ shared_phase s s')
     else s' = s).
Proof.
  intros Hr. apply reachable_well_formed in Hr. split.
  - rewrite motor_step_eq.
    destruct (gate s b); cbv zeta; do 3 eexists; (split; [reflexivity |]);
      [| reflexivity].
    apply adjacent_phases; [exact Hr | left; reflexivity].
  - rewrite motor_step_backward_eq.
    destruct (gate s b); cbv zeta; do 3 eexists; (split; [reflexivity |]);
      [| reflexivity].
    apply adjacent_phases; [exact Hr | right; reflexivity].
Qed.

Lemma adjacent_positions_overlap_witness :
  (exists r s' b',
     motor_step overlap_top overlap_top_board = Returned (r, s', b') /\
     if r
     then (overlap_pattern overlap_top -> shared_phase overlap_top s') /\
          (simple_pattern overlap_top -> ~ shared_phase overlap_top s')
     else s' = overlap_top) /\
  (exists r s' b',
     motor_step_backward overlap_top overlap_top_board
       = Returned (r, s', b') /\
     if r
     then (overlap_pattern overlap_top -> shared_phase overlap_top s') /\
          (simple_pattern overlap_top -> ~ shared_phase overlap_top s')
     else s' = overlap_top).
Proof.
  apply (adjacent_positions_overlap overlap_top overlap_top_board).
  exists 11, 12, 13, SEQUENCE_OVERLAP, board0, [StepBackward]. reflexivity.
Defined.
